(** * CipherSuite: the four classical ciphers and their shared base class

    A shallow embedding of [Encryptions.hpp], [Caesar.hpp], [Vigenere.hpp],
    [Atbash.hpp] and [A1Z26.hpp], and of the input helpers of the menu
    program that drives them.

    - a [char] is a byte ([ascii]); arithmetic on it happens on its value
      promoted to [int] ([int_of_char], [char] being signed as on x86-64),
      and a result is narrowed back with [to_char] (reduction modulo 2^8);
    - a [std::string] is a [list ascii];
    - an object is a record of its fields and a member function is a function
      on that record; a member function that can throw or whose behaviour
      can be undefined returns an [outcome];
    - the range-for loops append to [encrypted_message] one character at a
      time, which is kept as an accumulator threaded through the loop. *)

From Stdlib Require Import ZArith List Ascii String Bool Lia.
From Stdlib Require Import DecimalString.
Import ListNotations.
Local Open Scope Z_scope.

(** ** Outcomes of a call *)

Inductive exn : Type :=
| invalid_argument
| out_of_range.

Inductive outcome (A : Type) : Type :=
| Ok (a : A)
| Throw (e : exn)
| Undefined.

Arguments Ok {A} a.
Arguments Throw {A} e.
Arguments Undefined {A}.

Definition bind {A B : Type} (m : outcome A) (k : A -> outcome B) : outcome B :=
  match m with
  | Ok a => k a
  | Throw e => Throw e
  | Undefined => Undefined
  end.

Notation "x <- m ;; k" := (bind m (fun x => k))
  (at level 61, m at next level, right associativity).

Definition signals_error {A : Type} (m : outcome A) : Prop :=
  exists e, m = Throw e.

(** ** Characters, <cctype> in the "C" locale, and <string> helpers *)

Module CChar.

Definition byte_of (c : ascii) : Z := Z.of_N (N_of_ascii c).

(** Integral promotion of a (signed) [char]. *)
Definition int_of_char (c : ascii) : Z :=
  if byte_of c <? 128 then byte_of c else byte_of c - 256.

(** Conversion of an [int] to [char]. *)
Definition to_char (z : Z) : ascii := ascii_of_N (Z.to_N (z mod 256)).

Definition isupper (z : Z) : bool := (65 <=? z) && (z <=? 90).
Definition islower (z : Z) : bool := (97 <=? z) && (z <=? 122).
Definition isalpha (z : Z) : bool := isupper z || islower z.
Definition isdigit (z : Z) : bool := (48 <=? z) && (z <=? 57).
Definition isspace (z : Z) : bool := (z =? 32) || ((9 <=? z) && (z <=? 13)).
Definition tolower (z : Z) : Z := if isupper z then z + 32 else z.

(** [std::to_string(int)]. *)
Definition to_string (z : Z) : list ascii :=
  list_ascii_of_string (NilZero.string_of_int (Z.to_int z)).

(** [std::stoi(s)] in base 10: leading white space, an optional sign, then
    the longest run of digits; no digit is [invalid_argument], a value that
    does not fit an [int] is [out_of_range]. *)
Fixpoint skip_space (s : list ascii) : list ascii :=
  match s with
  | c :: r => if isspace (int_of_char c) then skip_space r else s
  | [] => []
  end.

Fixpoint parse_digits (s : list ascii) (acc : Z) : Z :=
  match s with
  | c :: r =>
      if isdigit (int_of_char c)
      then parse_digits r (10 * acc + (int_of_char c - 48))
      else acc
  | [] => acc
  end.

Definition INT_MIN : Z := - 2 ^ 31.
Definition INT_MAX : Z := 2 ^ 31 - 1.

Definition stoi (s : list ascii) : outcome Z :=
  let s1 := skip_space s in
  let '(neg, s2) :=
    match s1 with
    | c :: r =>
        if int_of_char c =? 45 then (true, r)
        else if int_of_char c =? 43 then (false, r)
        else (false, s1)
    | [] => (false, s1)
    end in
  match s2 with
  | d :: _ =>
      if isdigit (int_of_char d) then
        let v := if neg then - parse_digits s2 0 else parse_digits s2 0 in
        if (INT_MIN <=? v) && (v <=? INT_MAX) then Ok v else Throw out_of_range
      else Throw invalid_argument
  | [] => Throw invalid_argument
  end.

End CChar.
Import CChar.

Definition str (s : string) : list ascii := list_ascii_of_string s.

(** ** Encryptions.hpp: the base class *)

Record Encryption : Type := mkEncryption {
  message : list ascii;
  encrypted_message : list ascii
}.

Definition setMessage (m : list ascii) (e : Encryption) : Encryption :=
  {| message := m; encrypted_message := encrypted_message e |}.

Definition getEncryptedMessage (e : Encryption) : list ascii :=
  encrypted_message e.

(** A default-constructed object: both strings are empty. *)
Definition new_object : Encryption := {| message := []; encrypted_message := [] |}.

(** [encrypted_message.clear()]. *)
Definition clear (e : Encryption) : Encryption :=
  {| message := message e; encrypted_message := [] |}.

Definition with_result (e : Encryption) (r : list ascii) : Encryption :=
  {| message := message e; encrypted_message := r |}.

(** ** Caesar.hpp *)

Module Caesar.

Record t : Type := mk { base : Encryption; key : Z }.

Definition setMessage (m : list ascii) (s : t) : t :=
  mk (setMessage m (base s)) (key s).

Definition getEncryptedMessage (s : t) : list ascii :=
  getEncryptedMessage (base s).

(** [key = ((k % 26) + 26) % 26;] where [%] truncates towards zero. *)
Definition setKey (k : Z) (s : t) : t :=
  mk (base s) (Z.rem (Z.rem k 26 + 26) 26).

Definition encryptChar (key : Z) (c : ascii) : ascii :=
  if isupper (int_of_char c) then to_char ((int_of_char c - 65 + key) + 65)
  else if islower (int_of_char c) then to_char ((int_of_char c - 97 + key) + 97)
  else c.

Definition decryptChar (key : Z) (c : ascii) : ascii :=
  if isupper (int_of_char c) then to_char ((int_of_char c - 65 - key) + 65)
  else if islower (int_of_char c) then to_char ((int_of_char c - 97 - key) + 97)
  else c.

(** The body of [for (const char c : message)], [out] being the
    [encrypted_message] built so far. *)
Fixpoint encrypt_loop (key : Z) (msg out : list ascii) : list ascii :=
  match msg with
  | [] => out
  | c :: rest =>
      if isalpha (int_of_char c)
      then encrypt_loop key rest (out ++ [encryptChar key c])
      else encrypt_loop key rest (out ++ [c])
  end.

Fixpoint decrypt_loop (key : Z) (msg out : list ascii) : list ascii :=
  match msg with
  | [] => out
  | c :: rest =>
      if isalpha (int_of_char c)
      then decrypt_loop key rest (out ++ [decryptChar key c])
      else decrypt_loop key rest (out ++ [c])
  end.

Definition encrypt (s : t) : t :=
  let b := clear (base s) in
  mk (with_result b (encrypt_loop (key s) (message b) (encrypted_message b)))
     (key s).

Definition decrypt (s : t) : t :=
  let b := clear (base s) in
  mk (with_result b (decrypt_loop (key s) (message b) (encrypted_message b)))
     (key s).

(** The usage of [main]: configure message and key, transform, read the
    result.  [s] is the object before configuration. *)
Definition run_encrypt (s : t) (m : list ascii) (k : Z) : list ascii :=
  getEncryptedMessage (encrypt (setKey k (setMessage m s))).

Definition run_decrypt (s : t) (m : list ascii) (k : Z) : list ascii :=
  getEncryptedMessage (decrypt (setKey k (setMessage m s))).

End Caesar.

(** ** Vigenere.hpp *)

Module Vigenere.

Record t : Type := mk { base : Encryption; messageKey : list ascii }.

Definition setMessage (m : list ascii) (s : t) : t :=
  mk (setMessage m (base s)) (messageKey s).

Definition setKeyMessage (n : list ascii) (s : t) : t :=
  mk (base s) n.

Definition getEncryptedMessage (s : t) : list ascii :=
  getEncryptedMessage (base s).

(** [messageKey[i % messageKey.size()]]: the remainder by a size of zero is
    undefined.  The counter [i] is never negative. *)
Definition key_at (messageKey : list ascii) (i : nat) : outcome ascii :=
  match messageKey with
  | [] => Undefined
  | _ :: _ => Ok (nth (i mod List.length messageKey)%nat messageKey zero)
  end.

Definition encryptKeyChar (c : ascii) : Z :=
  if isupper (int_of_char c) then int_of_char c - 65 + 1
  else if islower (int_of_char c) then int_of_char c - 97 + 1
  else 0.

Definition encryptChar (messageKey : list ascii) (c : ascii) (i : nat)
  : outcome ascii :=
  if isupper (int_of_char c) then
    k <- key_at messageKey i ;;
    Ok (to_char (int_of_char c - 65 + encryptKeyChar k + 65))
  else if islower (int_of_char c) then
    k <- key_at messageKey i ;;
    Ok (to_char (int_of_char c - 97 + encryptKeyChar k + 97))
  else Ok c.

(** The shift that [decryptChar] derives from the keyword character. *)
Definition decrypt_shift (letter : ascii) : Z :=
  (if isupper (int_of_char letter)
   then int_of_char letter - 65
   else int_of_char letter - 97) + 1.

Definition decryptChar (messageKey : list ascii) (c : ascii) (k : nat)
  : outcome ascii :=
  letter <- key_at messageKey k ;;
  let shift := decrypt_shift letter in
  if isupper (int_of_char c) then
    Ok (to_char (Z.rem (int_of_char c - 65 - shift + 26) 26 + 65))
  else if islower (int_of_char c) then
    Ok (to_char (Z.rem (int_of_char c - 97 - shift + 26) 26 + 97))
  else Ok c.

(** [for (int i = 0; const char c : message) { ...; ++i; }]: the counter
    advances on every iteration.  It is a natural number here: a message is
    shorter than 2^31 characters, so the [int] does not overflow. *)
Fixpoint encrypt_loop (messageKey msg : list ascii) (i : nat)
  (out : list ascii) : outcome (list ascii) :=
  match msg with
  | [] => Ok out
  | c :: rest =>
      if isalpha (int_of_char c) then
        e <- encryptChar messageKey c i ;;
        encrypt_loop messageKey rest (S i) (out ++ [e])
      else encrypt_loop messageKey rest (S i) (out ++ [c])
  end.

Fixpoint decrypt_loop (messageKey msg : list ascii) (keyIndex : nat)
  (out : list ascii) : outcome (list ascii) :=
  match msg with
  | [] => Ok out
  | c :: rest =>
      if isalpha (int_of_char c) then
        d <- decryptChar messageKey c keyIndex ;;
        decrypt_loop messageKey rest (S keyIndex) (out ++ [d])
      else decrypt_loop messageKey rest (S keyIndex) (out ++ [c])
  end.

Definition encrypt (s : t) : outcome t :=
  let b := clear (base s) in
  r <- encrypt_loop (messageKey s) (message b) 0 (encrypted_message b) ;;
  Ok (mk (with_result b r) (messageKey s)).

Definition decrypt (s : t) : outcome t :=
  let b := clear (base s) in
  r <- decrypt_loop (messageKey s) (message b) 0 (encrypted_message b) ;;
  Ok (mk (with_result b r) (messageKey s)).

Definition run_encrypt (s : t) (m k : list ascii) : outcome (list ascii) :=
  s' <- encrypt (setKeyMessage k (setMessage m s)) ;;
  Ok (getEncryptedMessage s').

Definition run_decrypt (s : t) (m k : list ascii) : outcome (list ascii) :=
  s' <- decrypt (setKeyMessage k (setMessage m s)) ;;
  Ok (getEncryptedMessage s').

End Vigenere.

(** ** Atbash.hpp *)

Module Atbash.

Definition encryptChar (c : ascii) : ascii :=
  if isupper (int_of_char c) then to_char (90 - (int_of_char c - 65))
  else if islower (int_of_char c) then to_char (122 - (int_of_char c - 97))
  else c.

Fixpoint encrypt_loop (msg out : list ascii) : list ascii :=
  match msg with
  | [] => out
  | c :: rest =>
      if isalpha (int_of_char c)
      then encrypt_loop rest (out ++ [encryptChar c])
      else encrypt_loop rest (out ++ [c])
  end.

(** No [clear()]: the loop starts from the stored [encrypted_message]. *)
Definition encrypt (s : Encryption) : Encryption :=
  with_result s (encrypt_loop (message s) (encrypted_message s)).

Definition decrypt (s : Encryption) : Encryption := encrypt s.

(** One transform on a default-constructed object, as [main] does. *)
Definition run_encrypt (m : list ascii) : list ascii :=
  getEncryptedMessage (encrypt (setMessage m new_object)).

Definition run_decrypt (m : list ascii) : list ascii :=
  getEncryptedMessage (decrypt (setMessage m new_object)).

End Atbash.

(** ** A1Z26.hpp *)

Module A1Z26.

Definition encryptChar (c : ascii) : list ascii :=
  let c := to_char (tolower (int_of_char c)) in
  let c := to_char (int_of_char c - 96) in
  if int_of_char c <? 10
  then "0"%char :: to_string (int_of_char c)
  else to_string (int_of_char c).

Fixpoint encrypt_loop (msg out : list ascii) : list ascii :=
  match msg with
  | [] => out
  | c :: rest =>
      if isalpha (int_of_char c) then
        encrypt_loop rest (out ++ encryptChar c)
      else if isdigit (int_of_char c) then
        encrypt_loop rest (out ++ [to_char (int_of_char c + 48)])
      else encrypt_loop rest (out ++ [c])
  end.

Definition encrypt (s : Encryption) : Encryption :=
  with_result s (encrypt_loop (message s) (encrypted_message s)).

(** [for (int i = 0; i < message.size(); ++i)], with [rest] the part of
    [message] from index [i] on.  On a digit [message.substr(i++, 2)] is
    the first two characters of [rest] (one when [rest] has one), and the
    two increments of [i] drop both. *)
Fixpoint decrypt_loop (rest out : list ascii) : outcome (list ascii) :=
  match rest with
  | [] => Ok out
  | c :: tl =>
      if isdigit (int_of_char c) then
        match stoi (firstn 2 rest) with
        | Ok num =>
            let out' := out ++ [to_char (97 + num - 1)] in
            match tl with
            | [] => Ok out'
            | _ :: tl' => decrypt_loop tl' out'
            end
        | Throw e => Throw e
        | Undefined => Undefined
        end
      else if isalpha (int_of_char c) then
        decrypt_loop tl (out ++ to_string (tolower (int_of_char c) - 96))
      else decrypt_loop tl (out ++ [c])
  end.

Definition decrypt (s : Encryption) : outcome Encryption :=
  r <- decrypt_loop (message s) (encrypted_message s) ;;
  Ok (with_result s r).

Definition run_encrypt (m : list ascii) : list ascii :=
  getEncryptedMessage (encrypt (setMessage m new_object)).

Definition run_decrypt (m : list ascii) : outcome (list ascii) :=
  s <- decrypt (setMessage m new_object) ;;
  Ok (getEncryptedMessage s).

End A1Z26.

(** ** The menu program: its input helpers *)

Module Main.

Definition LONG_MIN : Z := - 2 ^ 63.
Definition LONG_MAX : Z := 2 ^ 63 - 1.

(** Conversion of a [long] to [int]: the low 32 bits, read as a signed
    value. *)
Definition int_of_long (z : Z) : Z := (z + 2 ^ 31) mod 2 ^ 32 - 2 ^ 31.

(** [std::atoi(s)], which is [(int) strtol(s, nullptr, 10)] (x86-64, glibc):
    white space, an optional sign, the longest run of digits (0 when there
    is none); [strtol] stops at the bounds of [long], and the conversion to
    [int] keeps the low 32 bits. *)
Definition atoi (s : list ascii) : Z :=
  let s1 := skip_space s in
  let '(neg, s2) :=
    match s1 with
    | c :: r =>
        if int_of_char c =? 45 then (true, r)
        else if int_of_char c =? 43 then (false, r)
        else (false, s1)
    | [] => (false, s1)
    end in
  let v := if neg then - parse_digits s2 0 else parse_digits s2 0 in
  int_of_long (Z.max LONG_MIN (Z.min LONG_MAX v)).

(** The view is made from a [std::string]: [input[0]] of an empty line reads
    the terminating NUL of that string, which is no digit. *)
Definition validInput (input : list ascii) : outcome (bool * Z) :=
  let first := match input with [] => zero | c :: _ => c end in
  if negb (isdigit (int_of_char first)) then Ok (false, 0)
  else
    let input_num := atoi input in
    Ok ((1 <=? input_num) && (input_num <=? 4), input_num).

(** [getUserInput]: read lines until [validInput] accepts one.  The lines
    still to be read from [std::cin] are a list.  Once the input has ended
    [readInput] gives the empty string, which [validInput] rejects, so the
    loop reads on for ever: [None] is that run, which never returns.  What
    is printed is left out. *)
Fixpoint getUserInput (lines : list (list ascii))
  : option (Z * list (list ascii)) :=
  match lines with
  | [] => None
  | input :: rest =>
      match validInput input with
      | Ok r => if fst r then Some (snd r, rest) else getUserInput rest
      | Throw _ => None
      | Undefined => None
      end
  end.

(** The character check of [readKey]: every character is a digit, or is a
    ['-'] at index 0. *)
Fixpoint key_chars_ok (key : list ascii) (i : nat) : bool :=
  match key with
  | [] => true
  | c :: r =>
      if negb (isdigit (int_of_char c))
         && negb ((i =? 0)%nat && (int_of_char c =? 45))
      then false
      else key_chars_ok r (S i)
  end.

(** [readKey]: read lines until one passes the character check, and convert
    it with [std::stoi].  After the end of the input the line is empty,
    it passes the check, and [stoi] is called on it. *)
Fixpoint readKey (lines : list (list ascii))
  : outcome (Z * list (list ascii)) :=
  match lines with
  | [] => v <- stoi [] ;; Ok (v, [])
  | key :: rest =>
      if key_chars_ok key 0
      then v <- stoi key ;; Ok (v, rest)
      else readKey rest
  end.

End Main.

(** ** Notions used to state the properties *)

(** What one iteration of the Caesar, Vigenere and Atbash loops appends. *)
Definition guarded (f : ascii -> ascii) (c : ascii) : ascii :=
  if isalpha (int_of_char c) then f c else c.

Definition lowercase (c : ascii) : ascii := to_char (tolower (int_of_char c)).

(** The decimal digit of value [v]. *)
Definition digit (v : Z) : ascii := to_char (48 + v).

(** The 1-based position of a letter in the alphabet. *)
Definition position (c : ascii) : Z := tolower (int_of_char c) - 96.

Definition all_letters (L : list ascii) : bool :=
  forallb (fun c => isalpha (int_of_char c)) L.

(** The keyword character that index [i] selects. *)
Definition key_char (K : list ascii) (i : nat) : ascii :=
  nth (i mod List.length K)%nat K zero.

(** What the forward loop appends for the character at index [i]. *)
Definition forward_char (K : list ascii) (i : nat) (c : ascii) : ascii :=
  if isalpha (int_of_char c)
  then to_char (int_of_char c + Vigenere.encryptKeyChar (key_char K i))
  else c.

(** What the backward loop appends for the character at index [i]. *)
Definition backward_char (K : list ascii) (i : nat) (c : ascii) : ascii :=
  let shift := Vigenere.decrypt_shift (key_char K i) in
  if isupper (int_of_char c)
  then to_char (Z.rem (int_of_char c - 65 - shift + 26) 26 + 65)
  else if islower (int_of_char c)
  then to_char (Z.rem (int_of_char c - 97 - shift + 26) 26 + 97)
  else c.

Definition indexed_from (i : nat) (M : list ascii) : list (nat * ascii) :=
  combine (seq i (List.length M)) M.

Definition has_letter (M : list ascii) : bool :=
  existsb (fun c => isalpha (int_of_char c)) M.

(** The code of the first letter of the case of [c]: ['A'] or ['a']. *)
Definition letter_base (c : ascii) : Z :=
  if isupper (int_of_char c) then 65 else 97.

(** The letter at index [i], shifted forwards by the keyword, is still a
    letter of its case (any other character passes). *)
Definition stays_in_case (K : list ascii) (p : nat * ascii) : bool :=
  negb (isalpha (int_of_char (snd p)))
  || (int_of_char (snd p) - letter_base (snd p)
      + Vigenere.encryptKeyChar (key_char K (fst p)) <? 26).

(** The keyword written [m] times in a row. *)
Definition repeated (K : list ascii) (m : nat) : list ascii :=
  List.concat (repeat K m).

(** What [A1Z26::encrypt] appends for one character. *)
Definition a1z26_unit (c : ascii) : list ascii :=
  if isalpha (int_of_char c) then A1Z26.encryptChar c
  else if isdigit (int_of_char c) then [to_char (int_of_char c + 48)]
  else [c].

(** What decoding the encoding makes of one character: ['0'] becomes the
    backquote, any other character its lowercase form. *)
Definition a1z26_back (c : ascii) : ascii :=
  if int_of_char c =? 48 then "`"%char else lowercase c.

Definition two_digits (n : Z) : list ascii := [digit (n / 10); digit (n mod 10)].

(** The lowercase letter of 1-based position [n]. *)
Definition letter_of (n : Z) : ascii := to_char (96 + n).

Definition count_letters (M : list ascii) : nat :=
  List.length (filter (fun c => isalpha (int_of_char c)) M).

Definition all_digits (s : list ascii) : bool :=
  forallb (fun c => isdigit (int_of_char c)) s.

(** The string is empty or its first character is no digit. *)
Definition no_digit_first (s : list ascii) : bool :=
  match s with
  | [] => true
  | c :: _ => negb (isdigit (int_of_char c))
  end.

Definition in_int (v : Z) : bool := (INT_MIN <=? v) && (v <=? INT_MAX).

(** The number written by a line of digits with an optional leading ['-']. *)
Definition key_value (key : list ascii) : Z :=
  match key with
  | [] => 0
  | c :: ds =>
      if int_of_char c =? 45 then - parse_digits ds 0 else parse_digits key 0
  end.

(** The results of the two Vigenere loops over a whole message. *)
Definition vigenere_forward (K M : list ascii) : list ascii :=
  map (fun p => forward_char K (fst p) (snd p)) (indexed_from 0 M).

Definition vigenere_backward (K M : list ascii) : list ascii :=
  map (fun p => backward_char K (fst p) (snd p)) (indexed_from 0 M).

(** The outcome of a Vigenere transform: without a keyword the first letter
    takes the remainder by 0, and a message without letters is copied. *)
Definition vigenere_expected (f : list ascii -> list ascii -> list ascii)
  (K M : list ascii) : outcome (list ascii) :=
  match K with
  | [] => if has_letter M then Undefined else Ok M
  | _ :: _ => Ok (f K M)
  end.

(** What [A1Z26::decrypt] appends for a whole message: at a digit the
    character ['a' + n - 1] for the number [n] read from the digit and the
    character after it (dropped with it), for a letter the decimal digits of
    its position, and any other character itself. *)
Fixpoint a1z26_decode (M : list ascii) : list ascii :=
  match M with
  | [] => []
  | c :: tl =>
      if isdigit (int_of_char c) then
        match tl with
        | [] => [to_char (97 + (int_of_char c - 48) - 1)]
        | c2 :: tl' =>
            to_char (97 + (if isdigit (int_of_char c2)
                           then 10 * (int_of_char c - 48) + (int_of_char c2 - 48)
                           else int_of_char c - 48) - 1)
            :: a1z26_decode tl'
        end
      else if isalpha (int_of_char c) then
        to_string (tolower (int_of_char c) - 96) ++ a1z26_decode tl
      else c :: a1z26_decode tl
  end.

(** * Properties *)

(** ** Characters *)

Lemma byte_of_bounds (c : ascii) : 0 <= byte_of c < 256.
Proof.
  unfold byte_of. pose proof (N_ascii_bounded c). lia.
Qed.

Lemma int_of_char_bounds (c : ascii) : -128 <= int_of_char c < 128.
Proof.
  unfold int_of_char. pose proof (byte_of_bounds c).
  destruct (Z.ltb_spec (byte_of c) 128); lia.
Qed.

Lemma to_char_int_of_char (c : ascii) : to_char (int_of_char c) = c.
Proof.
  unfold to_char, int_of_char. pose proof (byte_of_bounds c) as B.
  assert (E : (if byte_of c <? 128 then byte_of c else byte_of c - 256) mod 256
              = byte_of c).
  { destruct (Z.ltb_spec (byte_of c) 128).
    - apply Z.mod_small; lia.
    - symmetry. apply (Z.mod_unique _ _ (-1)); lia. }
  rewrite E. unfold byte_of. rewrite N2Z.id. apply ascii_N_embedding.
Qed.

Lemma byte_of_to_char (z : Z) : byte_of (to_char z) = z mod 256.
Proof.
  unfold byte_of, to_char.
  pose proof (Z.mod_pos_bound z 256 ltac:(lia)) as B.
  rewrite N_ascii_embedding by lia.
  apply Z2N.id; lia.
Qed.

Lemma int_of_char_to_char (z : Z) :
  0 <= z < 128 -> int_of_char (to_char z) = z.
Proof.
  intros Hz. unfold int_of_char. rewrite byte_of_to_char.
  rewrite Z.mod_small by lia.
  destruct (Z.ltb_spec z 128); lia.
Qed.

Lemma int_of_char_inj (c d : ascii) : int_of_char c = int_of_char d -> c = d.
Proof.
  intros E. rewrite <- (to_char_int_of_char c), <- (to_char_int_of_char d).
  now rewrite E.
Qed.

Lemma isupper_iff (z : Z) : isupper z = true <-> 65 <= z <= 90.
Proof. unfold isupper. rewrite andb_true_iff, !Z.leb_le. tauto. Qed.

Lemma islower_iff (z : Z) : islower z = true <-> 97 <= z <= 122.
Proof. unfold islower. rewrite andb_true_iff, !Z.leb_le. tauto. Qed.

Lemma isdigit_iff (z : Z) : isdigit z = true <-> 48 <= z <= 57.
Proof. unfold isdigit. rewrite andb_true_iff, !Z.leb_le. tauto. Qed.

Lemma isalpha_iff (z : Z) :
  isalpha z = true <-> 65 <= z <= 90 \/ 97 <= z <= 122.
Proof. unfold isalpha. rewrite orb_true_iff, isupper_iff, islower_iff. tauto. Qed.

Lemma isupper_false_iff (z : Z) : isupper z = false <-> z < 65 \/ 90 < z.
Proof.
  unfold isupper. rewrite andb_false_iff, !Z.leb_gt. tauto.
Qed.

Lemma islower_false_iff (z : Z) : islower z = false <-> z < 97 \/ 122 < z.
Proof.
  unfold islower. rewrite andb_false_iff, !Z.leb_gt. tauto.
Qed.

Lemma isalpha_false_iff (z : Z) :
  isalpha z = false <-> (z < 65 \/ 90 < z) /\ (z < 97 \/ 122 < z).
Proof.
  unfold isalpha. rewrite orb_false_iff, isupper_false_iff, islower_false_iff.
  tauto.
Qed.

(** Case analysis on the class of an [int] value, with the bounds in the
    context. *)
Ltac classify z :=
  let U := fresh "U" in
  let L := fresh "L" in
  destruct (isupper z) eqn:U;
  [ apply isupper_iff in U
  | apply isupper_false_iff in U;
    destruct (islower z) eqn:L;
    [ apply islower_iff in L | apply islower_false_iff in L ] ].

(** Turn the class facts of the context into bounds, and prove a class
    fact from bounds. *)
Ltac class_bounds :=
  repeat match goal with
  | H : isupper _ = true |- _ => apply isupper_iff in H
  | H : isupper _ = false |- _ => apply isupper_false_iff in H
  | H : islower _ = true |- _ => apply islower_iff in H
  | H : islower _ = false |- _ => apply islower_false_iff in H
  | H : isalpha _ = true |- _ => apply isalpha_iff in H
  | H : isalpha _ = false |- _ => apply isalpha_false_iff in H
  | H : isdigit _ = true |- _ => apply isdigit_iff in H
  end.

Ltac class_goal :=
  match goal with
  | |- isupper _ = true => apply isupper_iff; lia
  | |- isupper _ = false => apply isupper_false_iff; lia
  | |- islower _ = true => apply islower_iff; lia
  | |- islower _ = false => apply islower_false_iff; lia
  | |- isalpha _ = true => apply isalpha_iff; lia
  | |- isalpha _ = false => apply isalpha_false_iff; lia
  | |- isdigit _ = true => apply isdigit_iff; lia
  end.

(** ** The loops as maps *)

Lemma caesar_encrypt_loop_map (key : Z) (msg out : list ascii) :
  Caesar.encrypt_loop key msg out
  = out ++ map (guarded (Caesar.encryptChar key)) msg.
Proof.
  revert out. induction msg as [|c rest IH]; intros out; simpl.
  - now rewrite app_nil_r.
  - unfold guarded at 1.
    destruct (isalpha (int_of_char c)); rewrite IH, <- app_assoc; reflexivity.
Qed.

Lemma caesar_decrypt_loop_map (key : Z) (msg out : list ascii) :
  Caesar.decrypt_loop key msg out
  = out ++ map (guarded (Caesar.decryptChar key)) msg.
Proof.
  revert out. induction msg as [|c rest IH]; intros out; simpl.
  - now rewrite app_nil_r.
  - unfold guarded at 1.
    destruct (isalpha (int_of_char c)); rewrite IH, <- app_assoc; reflexivity.
Qed.

Lemma atbash_encrypt_loop_map (msg out : list ascii) :
  Atbash.encrypt_loop msg out = out ++ map (guarded Atbash.encryptChar) msg.
Proof.
  revert out. induction msg as [|c rest IH]; intros out; simpl.
  - now rewrite app_nil_r.
  - unfold guarded at 1.
    destruct (isalpha (int_of_char c)); rewrite IH, <- app_assoc; reflexivity.
Qed.

(** ** Caesar *)

Lemma rem26_bounds (k : Z) : - 26 < Z.rem k 26 < 26.
Proof.
  pose proof (Z.rem_bound_abs k 26 ltac:(lia)). lia.
Qed.

Lemma setKey_value (k : Z) (s : Caesar.t) :
  Caesar.key (Caesar.setKey k s) = k mod 26.
Proof.
  unfold Caesar.setKey; simpl.
  pose proof (rem26_bounds k) as Hr.
  assert (Hq : k = 26 * Z.quot k 26 + Z.rem k 26) by (apply Z.quot_rem'; lia).
  rewrite Z.rem_mod_nonneg by lia.
  rewrite Hq at 2.
  replace (26 * Z.quot k 26 + Z.rem k 26)
    with (Z.rem k 26 + 26 + (Z.quot k 26 - 1) * 26) by lia.
  rewrite Z.mod_add by lia. reflexivity.
Qed.

(** No intermediate value of [setKey] leaves the range of [int]. *)
Lemma setKey_no_overflow (k : Z) :
  INT_MIN <= k <= INT_MAX ->
  INT_MIN <= Z.rem k 26 <= INT_MAX /\ INT_MIN <= Z.rem k 26 + 26 <= INT_MAX.
Proof.
  intros Hk. unfold INT_MIN, INT_MAX in *.
  pose proof (rem26_bounds k). lia.
Qed.

Lemma caesar_run_encrypt_map (s : Caesar.t) (M : list ascii) (k : Z) :
  Caesar.run_encrypt s M k = map (guarded (Caesar.encryptChar (k mod 26))) M.
Proof.
  unfold Caesar.run_encrypt, Caesar.getEncryptedMessage, Caesar.encrypt.
  simpl. rewrite caesar_encrypt_loop_map. simpl.
  pose proof (setKey_value k s) as E. simpl in E. now rewrite E.
Qed.

Lemma caesar_run_decrypt_map (s : Caesar.t) (M : list ascii) (k : Z) :
  Caesar.run_decrypt s M k = map (guarded (Caesar.decryptChar (k mod 26))) M.
Proof.
  unfold Caesar.run_decrypt, Caesar.getEncryptedMessage, Caesar.decrypt.
  simpl. rewrite caesar_decrypt_loop_map. simpl.
  pose proof (setKey_value k s) as E. simpl in E. now rewrite E.
Qed.

(** What [encryptChar] computes on a letter: the plain sum, not reduced. *)
Lemma caesar_encryptChar_letter (key : Z) (c : ascii) :
  isalpha (int_of_char c) = true ->
  Caesar.encryptChar key c = to_char (int_of_char c + key).
Proof.
  intros A. unfold Caesar.encryptChar.
  classify (int_of_char c).
  - f_equal; lia.
  - f_equal; lia.
  - apply isalpha_iff in A. lia.
Qed.

(** On an uppercase letter the code agrees with the reduced formula exactly
    when the sum does not pass ['Z']. *)
Lemma caesar_encryptChar_upper_agrees_iff (key : Z) (c : ascii) :
  0 <= key <= 25 ->
  isupper (int_of_char c) = true ->
  Caesar.encryptChar key c = to_char ((int_of_char c - 65 + key) mod 26 + 65)
  <-> int_of_char c - 65 + key < 26.
Proof.
  intros Hk U. unfold Caesar.encryptChar. rewrite U.
  apply isupper_iff in U.
  pose proof (Z.mod_pos_bound (int_of_char c - 65 + key) 26 ltac:(lia)) as B.
  split.
  - intros E. apply (f_equal int_of_char) in E.
    rewrite !int_of_char_to_char in E by lia. lia.
  - intros Hlt. rewrite Z.mod_small by lia. reflexivity.
Qed.

(** The round trip holds on the messages none of whose letters is shifted
    out of the letters. *)
Lemma caesar_roundtrip_when_letters_stay (s s' : Caesar.t) (M : list ascii) (k : Z) :
  (forall c, In c M -> isalpha (int_of_char c) = true ->
             isalpha (int_of_char c + k mod 26) = true) ->
  Caesar.run_decrypt s' (Caesar.run_encrypt s M k) k = M.
Proof.
  intros H. rewrite caesar_run_encrypt_map, caesar_run_decrypt_map, map_map.
  rewrite <- (map_id M) at 2. apply map_ext_in.
  intros c Hc. unfold guarded at 2.
  destruct (isalpha (int_of_char c)) eqn:A.
  - specialize (H c Hc A).
    rewrite (caesar_encryptChar_letter _ _ A).
    assert (R : 0 <= int_of_char c + k mod 26 < 128)
      by (apply isalpha_iff in H; lia).
    unfold guarded, Caesar.decryptChar.
    rewrite (int_of_char_to_char _ R), H.
    classify (int_of_char c + k mod 26).
    + rewrite <- (to_char_int_of_char c) at 2. f_equal; lia.
    + rewrite <- (to_char_int_of_char c) at 2. f_equal; lia.
    + apply isalpha_iff in H. lia.
  - unfold guarded. now rewrite A.
Qed.

(** C8: [setKey] stores [((k mod 26) + 26) mod 26] (mathematical modulo),
    a value of [0..25] for every [k], negative or not; hence a key and that
    key plus 26 encrypt every message alike. *)
Theorem caesar_setKey_normalizes (s : Caesar.t) (k : Z) :
  Caesar.key (Caesar.setKey k s) = ((k mod 26) + 26) mod 26 /\
  0 <= Caesar.key (Caesar.setKey k s) <= 25 /\
  (forall M : list ascii,
      Caesar.run_encrypt s M k = Caesar.run_encrypt s M (k + 26)).
Proof.
  rewrite setKey_value.
  pose proof (Z.mod_pos_bound k 26 ltac:(lia)) as B.
  repeat split; try lia.
  - replace (k mod 26 + 26) with (k mod 26 + 1 * 26) by lia.
    rewrite Z.mod_add, Z.mod_mod by lia. reflexivity.
  - intros M. rewrite !caesar_run_encrypt_map.
    replace (k + 26) with (k + 1 * 26) by lia.
    rewrite Z.mod_add by lia. reflexivity.
Qed.

(** C1: the round trip fails: with key 3 the message "Z" is encrypted to
    "]", which is not a letter, and decrypting "]" leaves it as it is. *)
Theorem caesar_roundtrip_fails_on_Z (s s' : Caesar.t) :
  Caesar.run_encrypt s (str "Z") 3 = str "]" /\
  Caesar.run_decrypt s' (Caesar.run_encrypt s (str "Z") 3) 3 = str "]" /\
  str "]" <> str "Z".
Proof.
  rewrite caesar_run_decrypt_map, caesar_run_encrypt_map.
  repeat split; try reflexivity. discriminate.
Qed.

(** C2: the sum is not reduced modulo 26: with the stored key 3, ['Z'] gives
    [']'] where the formula gives ['C'], and ['z'] gives ['}'] where the
    formula gives ['c']; neither result is a letter. *)
Theorem caesar_encryptChar_not_reduced :
  Caesar.encryptChar 3 "Z" = "]"%char /\
  to_char ((int_of_char "Z" - 65 + 3) mod 26 + 65) = "C"%char /\
  Caesar.encryptChar 3 "z" = "}"%char /\
  to_char ((int_of_char "z" - 97 + 3) mod 26 + 97) = "c"%char /\
  isalpha (int_of_char (Caesar.encryptChar 3 "Z")) = false /\
  isalpha (int_of_char (Caesar.encryptChar 3 "z")) = false.
Proof.
  repeat split; vm_compute; reflexivity.
Qed.

(** ** Atbash *)

Lemma atbash_encryptChar_value (c : ascii) :
  int_of_char (Atbash.encryptChar c) =
  if isupper (int_of_char c) then 90 - (int_of_char c - 65)
  else if islower (int_of_char c) then 122 - (int_of_char c - 97)
  else int_of_char c.
Proof.
  unfold Atbash.encryptChar.
  classify (int_of_char c); try reflexivity;
    apply int_of_char_to_char; lia.
Qed.

Lemma atbash_encryptChar_keeps_class (c : ascii) :
  isupper (int_of_char (Atbash.encryptChar c)) = isupper (int_of_char c) /\
  islower (int_of_char (Atbash.encryptChar c)) = islower (int_of_char c).
Proof.
  rewrite atbash_encryptChar_value.
  destruct (isupper (int_of_char c)) eqn:U, (islower (int_of_char c)) eqn:L;
    class_bounds; split; class_goal.
Qed.

Lemma atbash_encryptChar_involutive (c : ascii) :
  Atbash.encryptChar (Atbash.encryptChar c) = c.
Proof.
  apply int_of_char_inj.
  rewrite atbash_encryptChar_value.
  destruct (atbash_encryptChar_keeps_class c) as [-> ->].
  rewrite atbash_encryptChar_value.
  destruct (isupper (int_of_char c)); [lia|].
  destruct (islower (int_of_char c)); lia.
Qed.

Lemma guarded_atbash (c : ascii) :
  guarded Atbash.encryptChar c = Atbash.encryptChar c.
Proof.
  unfold guarded, Atbash.encryptChar, isalpha.
  destruct (isupper (int_of_char c)), (islower (int_of_char c)); reflexivity.
Qed.

Lemma atbash_run_encrypt_map (M : list ascii) :
  Atbash.run_encrypt M = map Atbash.encryptChar M.
Proof.
  unfold Atbash.run_encrypt, Atbash.encrypt, getEncryptedMessage. simpl.
  rewrite atbash_encrypt_loop_map. simpl.
  apply map_ext, guarded_atbash.
Qed.

(** C7: the Atbash transform applies [encryptChar] to every character of
    the message, which maps an uppercase [c] to ['Z' - (c - 'A')], a
    lowercase [c] to ['z' - (c - 'a')] and leaves any other character;
    [decrypt] is [encrypt]; and encrypting the encryption of a message gives
    the message back. *)
Theorem atbash_involution (M : list ascii) (c : ascii) (s : Encryption) :
  int_of_char (Atbash.encryptChar c) =
    (if isupper (int_of_char c) then int_of_char "Z" - (int_of_char c - int_of_char "A")
     else if islower (int_of_char c) then int_of_char "z" - (int_of_char c - int_of_char "a")
     else int_of_char c) /\
  Atbash.run_encrypt M = map Atbash.encryptChar M /\
  Atbash.run_decrypt M = map Atbash.encryptChar M /\
  Atbash.encrypt s
    = mkEncryption (message s)
        (encrypted_message s ++ map Atbash.encryptChar (message s)) /\
  Atbash.decrypt s = Atbash.encrypt s /\
  Atbash.run_decrypt M = Atbash.run_encrypt M /\
  Atbash.run_encrypt (Atbash.run_encrypt M) = M.
Proof.
  split; [apply atbash_encryptChar_value|].
  split; [apply atbash_run_encrypt_map|].
  split; [apply atbash_run_encrypt_map|].
  split.
  { unfold Atbash.encrypt, with_result. rewrite atbash_encrypt_loop_map.
    do 2 f_equal. apply map_ext, guarded_atbash. }
  split; [reflexivity|]. split; [reflexivity|].
  rewrite !atbash_run_encrypt_map, map_map.
  induction M as [|x M IH]; simpl.
  - reflexivity.
  - now rewrite atbash_encryptChar_involutive, IH.
Qed.

(** ** A1Z26 *)

Lemma a1z26_encryptChar_letter (c : ascii) :
  isalpha (int_of_char c) = true ->
  A1Z26.encryptChar c = [digit (position c / 10); digit (position c mod 10)].
Proof.
  destruct c as [[] [] [] [] [] [] [] []]; intros H;
    solve [ vm_compute in H; discriminate H | vm_compute; reflexivity ].
Qed.

Lemma position_bounds (c : ascii) :
  isalpha (int_of_char c) = true -> 1 <= position c <= 26.
Proof.
  intros A. apply isalpha_iff in A. unfold position, tolower.
  classify (int_of_char c); lia.
Qed.

Lemma a1z26_encrypt_loop_flat (msg out : list ascii) :
  all_letters msg = true ->
  A1Z26.encrypt_loop msg out = out ++ flat_map A1Z26.encryptChar msg.
Proof.
  revert out. induction msg as [|c rest IH]; intros out H; simpl.
  - now rewrite app_nil_r.
  - simpl in H. apply andb_true_iff in H as [Hc Hr].
    rewrite Hc, IH, <- app_assoc by assumption. reflexivity.
Qed.

(** [stoi] on what [substr(i, 2)] yields at a digit. *)
Lemma isdigit_not_space_sign (d : ascii) :
  isdigit (int_of_char d) = true ->
  isspace (int_of_char d) = false /\
  (int_of_char d =? 45) = false /\ (int_of_char d =? 43) = false.
Proof.
  intros D. apply isdigit_iff in D. unfold isspace.
  repeat split.
  - apply orb_false_iff; split; [apply Z.eqb_neq; lia|].
    apply andb_false_iff; right; apply Z.leb_gt; lia.
  - apply Z.eqb_neq; lia.
  - apply Z.eqb_neq; lia.
Qed.

Lemma int_range_small (v : Z) :
  0 <= v <= 99 -> (INT_MIN <=? v) && (v <=? INT_MAX) = true.
Proof.
  intros Hv. unfold INT_MIN, INT_MAX.
  apply andb_true_iff; split; apply Z.leb_le; lia.
Qed.

Lemma stoi_one_digit (d : ascii) :
  isdigit (int_of_char d) = true -> stoi [d] = Ok (int_of_char d - 48).
Proof.
  intros D. destruct (isdigit_not_space_sign d D) as (S & M & P).
  unfold stoi. cbn [skip_space]. rewrite S, M, P.
  cbn [parse_digits]. rewrite D.
  apply isdigit_iff in D.
  rewrite int_range_small by lia. f_equal; lia.
Qed.

Lemma stoi_two_chars (d c2 : ascii) :
  isdigit (int_of_char d) = true ->
  stoi [d; c2] =
  Ok (if isdigit (int_of_char c2)
      then 10 * (int_of_char d - 48) + (int_of_char c2 - 48)
      else int_of_char d - 48).
Proof.
  intros D. destruct (isdigit_not_space_sign d D) as (S & M & P).
  unfold stoi. cbn [skip_space]. rewrite S, M, P.
  cbn [parse_digits]. rewrite D.
  apply isdigit_iff in D.
  destruct (isdigit (int_of_char c2)) eqn:D2.
  - apply isdigit_iff in D2. rewrite int_range_small by lia. f_equal; lia.
  - rewrite int_range_small by lia. f_equal; lia.
Qed.

Lemma a1z26_decrypt_loop_lone_digit (d : ascii) (out : list ascii) :
  isdigit (int_of_char d) = true ->
  A1Z26.decrypt_loop [d] out = Ok (out ++ [to_char (97 + (int_of_char d - 48) - 1)]).
Proof.
  intros D. unfold A1Z26.decrypt_loop. rewrite D.
  change (firstn 2 [d]) with [d]. rewrite (stoi_one_digit d D). reflexivity.
Qed.

Lemma a1z26_decrypt_loop_group (d c2 : ascii) (rest out : list ascii) :
  isdigit (int_of_char d) = true ->
  A1Z26.decrypt_loop (d :: c2 :: rest) out =
  A1Z26.decrypt_loop rest
    (out ++ [to_char (97 + (if isdigit (int_of_char c2)
                            then 10 * (int_of_char d - 48) + (int_of_char c2 - 48)
                            else int_of_char d - 48) - 1)]).
Proof.
  intros D. simpl A1Z26.decrypt_loop at 1. rewrite D.
  change (firstn 2 (d :: c2 :: rest)) with [d; c2].
  rewrite (stoi_two_chars d c2 D). reflexivity.
Qed.

Lemma digit_value (v : Z) : 0 <= v <= 9 -> int_of_char (digit v) = 48 + v.
Proof.
  intros Hv. unfold digit. apply int_of_char_to_char. lia.
Qed.

Lemma a1z26_decrypt_two_digits (n : Z) (rest out : list ascii) :
  0 <= n <= 99 ->
  A1Z26.decrypt_loop (digit (n / 10) :: digit (n mod 10) :: rest) out =
  A1Z26.decrypt_loop rest (out ++ [to_char (97 + n - 1)]).
Proof.
  intros Hn.
  pose proof (Z.mod_pos_bound n 10 ltac:(lia)) as Hr.
  pose proof (Z.div_mod n 10 ltac:(lia)) as E.
  assert (Hq : 0 <= n / 10 <= 9) by lia.
  rewrite a1z26_decrypt_loop_group
    by (rewrite digit_value by lia; class_goal).
  rewrite !digit_value by lia.
  replace (isdigit (48 + n mod 10)) with true by (symmetry; class_goal).
  do 4 f_equal. lia.
Qed.

Lemma a1z26_decrypt_encoded (L out : list ascii) :
  all_letters L = true ->
  A1Z26.decrypt_loop (flat_map A1Z26.encryptChar L) out
  = Ok (out ++ map lowercase L).
Proof.
  revert out. induction L as [|c L IH]; intros out H; simpl.
  - now rewrite app_nil_r.
  - simpl in H. apply andb_true_iff in H as [Hc HL].
    rewrite (a1z26_encryptChar_letter c Hc).
    pose proof (position_bounds c Hc) as B.
    cbn [app]. rewrite (a1z26_decrypt_two_digits (position c)) by lia.
    rewrite IH, <- app_assoc by assumption.
    cbn [app]. unfold lowercase, position.
    replace (97 + (tolower (int_of_char c) - 96) - 1)
      with (tolower (int_of_char c)) by lia.
    reflexivity.
Qed.

Lemma a1z26_encoded_length (L : list ascii) :
  all_letters L = true ->
  List.length (flat_map A1Z26.encryptChar L) = (2 * List.length L)%nat.
Proof.
  induction L as [|c L IH]; intros H; simpl.
  - reflexivity.
  - simpl in H. apply andb_true_iff in H as [Hc HL].
    rewrite (a1z26_encryptChar_letter c Hc). cbn [app List.length].
    rewrite IH by assumption. lia.
Qed.

Lemma a1z26_run_encrypt_letters (L : list ascii) :
  all_letters L = true ->
  A1Z26.run_encrypt L = flat_map A1Z26.encryptChar L.
Proof.
  intros H. unfold A1Z26.run_encrypt, A1Z26.encrypt, getEncryptedMessage.
  simpl. now rewrite a1z26_encrypt_loop_flat.
Qed.

Lemma a1z26_run_decrypt_loop (M : list ascii) :
  A1Z26.run_decrypt M = A1Z26.decrypt_loop M [].
Proof.
  unfold A1Z26.run_decrypt, A1Z26.decrypt. simpl.
  destruct (A1Z26.decrypt_loop M []); reflexivity.
Qed.

(** C6: on a message of letters only, decoding the encoding gives the
    message in lowercase; every letter is encoded as the two decimal digits
    of its position (a leading zero for 1 to 9), so "HELLO" gives
    "0805121215"; and a two-digit group [n] is decoded as ['a' + n - 1]. *)
Theorem a1z26_roundtrip_on_letters (L : list ascii) (n : Z) :
  all_letters L = true ->
  1 <= n <= 26 ->
  A1Z26.run_decrypt (A1Z26.run_encrypt L) = Ok (map lowercase L) /\
  (forall c, In c L ->
     A1Z26.encryptChar c = [digit (position c / 10); digit (position c mod 10)]) /\
  List.length (A1Z26.run_encrypt L) = (2 * List.length L)%nat /\
  A1Z26.run_encrypt (str "HELLO") = str "0805121215" /\
  A1Z26.run_decrypt [digit (n / 10); digit (n mod 10)]
    = Ok [to_char (int_of_char "a" + n - 1)].
Proof.
  intros HL Hn.
  rewrite (a1z26_run_encrypt_letters L HL), !a1z26_run_decrypt_loop.
  split; [apply (a1z26_decrypt_encoded L [] HL)|].
  split.
  { intros c Hc. apply a1z26_encryptChar_letter.
    unfold all_letters in HL. rewrite forallb_forall in HL. now apply HL. }
  split; [now apply a1z26_encoded_length|].
  split; [reflexivity|].
  rewrite a1z26_decrypt_two_digits by lia. reflexivity.
Qed.

Lemma a1z26_roundtrip_on_letters_witness :
  A1Z26.run_decrypt (A1Z26.run_encrypt (str "HELLO")) = Ok (str "hello") /\
  A1Z26.run_decrypt [digit (8 / 10); digit (8 mod 10)] = Ok (str "h").
Proof.
  pose proof (a1z26_roundtrip_on_letters (str "HELLO") 8 eq_refl
                ltac:(lia)) as (R & _ & _ & _ & G).
  split; [exact R | exact G].
Defined.

Lemma a1z26_decrypt_loop_other (a : ascii) (tl out : list ascii) :
  isdigit (int_of_char a) = false ->
  A1Z26.decrypt_loop (a :: tl) out =
  A1Z26.decrypt_loop tl
    (out ++ (if isalpha (int_of_char a)
             then to_string (tolower (int_of_char a) - 96)
             else [a])).
Proof.
  intros D. cbn [A1Z26.decrypt_loop]. rewrite D.
  destruct (isalpha (int_of_char a)); reflexivity.
Qed.

(** Two characters at a time: the induction that follows the digit branch
    of [decrypt]. *)
Lemma list_pair_ind {A : Type} (P : list A -> Prop) :
  P [] ->
  (forall a, P [a]) ->
  (forall a b l, P l -> P (b :: l) -> P (a :: b :: l)) ->
  forall l, P l.
Proof.
  intros H0 H1 H2 l.
  assert (B : P l /\ forall a, P (a :: l)).
  { induction l as [|b l [IHl IHc]].
    - split; [exact H0 | exact H1].
    - split; [apply IHc | intros a; apply H2; [exact IHl | apply IHc]]. }
  exact (proj1 B).
Qed.

Lemma a1z26_decrypt_loop_total (M : list ascii) :
  forall out, exists r, A1Z26.decrypt_loop M out = Ok r.
Proof.
  induction M as [| a | a b l IHl IHbl] using list_pair_ind; intros out.
  - exists out. reflexivity.
  - destruct (isdigit (int_of_char a)) eqn:D.
    + eexists. apply a1z26_decrypt_loop_lone_digit, D.
    + simpl. rewrite D.
      destruct (isalpha (int_of_char a)); eexists; reflexivity.
  - destruct (isdigit (int_of_char a)) eqn:D.
    + rewrite (a1z26_decrypt_loop_group a b l out D). apply IHl.
    + rewrite (a1z26_decrypt_loop_other a (b :: l) out D). apply IHbl.
Qed.

(** C5, as the code has it: decoding never signals an error.  A digit is
    taken with the character after it, when there is one, and the number
    [n] read from them is appended as the character ['a' + n - 1] without
    a range check; a lone digit at the end is decoded on its own. *)
Theorem a1z26_decrypt_never_signals
  (M rest out : list ascii) (d c2 : ascii) :
  isdigit (int_of_char d) = true ->
  (exists r, A1Z26.run_decrypt M = Ok r) /\
  ~ signals_error (A1Z26.run_decrypt M) /\
  A1Z26.decrypt_loop [d] out
    = Ok (out ++ [to_char (int_of_char "a" + (int_of_char d - 48) - 1)]) /\
  A1Z26.decrypt_loop (d :: c2 :: rest) out
    = A1Z26.decrypt_loop rest
        (out ++ [to_char (int_of_char "a" +
                          (if isdigit (int_of_char c2)
                           then 10 * (int_of_char d - 48) + (int_of_char c2 - 48)
                           else int_of_char d - 48) - 1)]).
Proof.
  intros D.
  destruct (a1z26_decrypt_loop_total M []) as [r Hr].
  rewrite a1z26_run_decrypt_loop, Hr.
  split; [now exists r|].
  split; [intros [e He]; discriminate He|].
  split.
  - apply a1z26_decrypt_loop_lone_digit, D.
  - apply a1z26_decrypt_loop_group, D.
Qed.

Lemma a1z26_decrypt_never_signals_witness :
  A1Z26.decrypt_loop (str "5") [] = Ok (str "e") /\
  A1Z26.decrypt_loop (str "5x12") [] = A1Z26.decrypt_loop (str "12") (str "e").
Proof.
  pose proof (a1z26_decrypt_never_signals [] (str "12") [] "5" "x" eq_refl)
    as (_ & _ & L & G).
  split; [exact L | exact G].
Defined.

(** C5, as stated, fails: a lone digit, and groups outside 1..26, are
    decoded without any error. *)
Lemma a1z26_decrypt_accepts_malformed :
  A1Z26.run_decrypt (str "5") = Ok (str "e") /\
  A1Z26.run_decrypt (str "27") = Ok (str "{") /\
  A1Z26.run_decrypt (str "00") = Ok (str "`") /\
  ~ signals_error (A1Z26.run_decrypt (str "5")) /\
  ~ signals_error (A1Z26.run_decrypt (str "27")) /\
  ~ signals_error (A1Z26.run_decrypt (str "00")).
Proof.
  repeat split; try reflexivity; intros [e He]; discriminate He.
Qed.

(** ** Vigenere *)

Lemma vigenere_key_at_nonempty (K : list ascii) (i : nat) :
  K <> [] -> Vigenere.key_at K i = Ok (key_char K i).
Proof.
  destruct K as [|k K]; [congruence | reflexivity].
Qed.

Lemma vigenere_encryptChar_forward (K : list ascii) (c : ascii) (i : nat) :
  K <> [] -> isalpha (int_of_char c) = true ->
  Vigenere.encryptChar K c i = Ok (forward_char K i c).
Proof.
  intros HK A. unfold Vigenere.encryptChar, forward_char.
  rewrite (vigenere_key_at_nonempty K i HK), A. simpl.
  classify (int_of_char c).
  - do 2 f_equal; lia.
  - do 2 f_equal; lia.
  - class_bounds; lia.
Qed.

Lemma vigenere_decryptChar_backward (K : list ascii) (c : ascii) (i : nat) :
  K <> [] -> Vigenere.decryptChar K c i = Ok (backward_char K i c).
Proof.
  intros HK. unfold Vigenere.decryptChar, backward_char.
  rewrite (vigenere_key_at_nonempty K i HK). simpl.
  destruct (isupper (int_of_char c)); [reflexivity|].
  destruct (islower (int_of_char c)); reflexivity.
Qed.

Lemma backward_char_other (K : list ascii) (i : nat) (c : ascii) :
  isalpha (int_of_char c) = false -> backward_char K i c = c.
Proof.
  intros A. unfold backward_char. unfold isalpha in A.
  apply orb_false_iff in A as [-> ->]. reflexivity.
Qed.

Lemma vigenere_encrypt_loop_indexed (K M : list ascii) (i : nat) (out : list ascii) :
  K <> [] ->
  Vigenere.encrypt_loop K M i out
  = Ok (out ++ map (fun p => forward_char K (fst p) (snd p)) (indexed_from i M)).
Proof.
  intros HK. revert i out.
  induction M as [|c M IH]; intros i out; simpl.
  - now rewrite app_nil_r.
  - destruct (isalpha (int_of_char c)) eqn:A.
    + rewrite (vigenere_encryptChar_forward K c i HK A). simpl.
      rewrite IH, <- app_assoc. reflexivity.
    + rewrite IH, <- app_assoc. unfold forward_char at 2. simpl.
      now rewrite A.
Qed.

Lemma vigenere_decrypt_loop_indexed (K M : list ascii) (i : nat) (out : list ascii) :
  K <> [] ->
  Vigenere.decrypt_loop K M i out
  = Ok (out ++ map (fun p => backward_char K (fst p) (snd p)) (indexed_from i M)).
Proof.
  intros HK. revert i out.
  induction M as [|c M IH]; intros i out; simpl.
  - now rewrite app_nil_r.
  - destruct (isalpha (int_of_char c)) eqn:A.
    + rewrite (vigenere_decryptChar_backward K c i HK). simpl.
      rewrite IH, <- app_assoc. reflexivity.
    + rewrite IH, <- app_assoc. simpl.
      now rewrite (backward_char_other K i c A).
Qed.

(** For a keyword letter both directions use the same shift, its 1-based
    position in the alphabet. *)
Lemma vigenere_shift_of_letter (k : ascii) :
  isalpha (int_of_char k) = true ->
  Vigenere.decrypt_shift k = Vigenere.encryptKeyChar k /\
  Vigenere.encryptKeyChar k = position k /\
  1 <= Vigenere.encryptKeyChar k <= 26.
Proof.
  intros A. unfold Vigenere.decrypt_shift, Vigenere.encryptKeyChar, position, tolower.
  classify (int_of_char k); class_bounds; lia.
Qed.

(** A keyword character that is no letter shifts by 0 forwards, and by its
    code minus 96 backwards. *)
Lemma vigenere_shift_of_other (k : ascii) :
  isalpha (int_of_char k) = false ->
  Vigenere.encryptKeyChar k = 0 /\
  Vigenere.decrypt_shift k = int_of_char k - 96.
Proof.
  intros A. unfold Vigenere.decrypt_shift, Vigenere.encryptKeyChar.
  unfold isalpha in A. apply orb_false_iff in A as [-> ->]. lia.
Qed.

Lemma vigenere_run_encrypt_loop (s : Vigenere.t) (M K : list ascii) :
  Vigenere.run_encrypt s M K = Vigenere.encrypt_loop K M 0 [].
Proof.
  unfold Vigenere.run_encrypt, Vigenere.encrypt. simpl.
  destruct (Vigenere.encrypt_loop K M 0 []); reflexivity.
Qed.

Lemma vigenere_run_decrypt_loop (s : Vigenere.t) (M K : list ascii) :
  Vigenere.run_decrypt s M K = Vigenere.decrypt_loop K M 0 [].
Proof.
  unfold Vigenere.run_decrypt, Vigenere.decrypt. simpl.
  destruct (Vigenere.decrypt_loop K M 0 []); reflexivity.
Qed.

(** C3: the round trip fails for a non-empty keyword: with the keyword "A"
    the message "Z" is encrypted to "[", which decrypts to itself; and with
    the keyword "!" the message "b" is encrypted to "b", which decrypts to
    "m". *)
Theorem vigenere_roundtrip_fails (s s' : Vigenere.t) :
  Vigenere.run_encrypt s (str "Z") (str "A") = Ok (str "[") /\
  Vigenere.run_decrypt s' (str "[") (str "A") = Ok (str "[") /\
  str "[" <> str "Z" /\
  Vigenere.run_encrypt s (str "b") (str "!") = Ok (str "b") /\
  Vigenere.run_decrypt s' (str "b") (str "!") = Ok (str "m") /\
  str "m" <> str "b".
Proof.
  rewrite !vigenere_run_encrypt_loop, !vigenere_run_decrypt_loop.
  repeat split; try (vm_compute; reflexivity); discriminate.
Qed.

(** C9: the backward transform does not use offset 0 for a keyword
    character that is no letter: for ['!'] the forward offset is 0, the
    backward shift is -63, and decrypting "b" under the keyword "!" gives
    "m" where offset 0 would give "b". *)
Theorem vigenere_backward_shift_of_nonletter (s : Vigenere.t) :
  Vigenere.encryptKeyChar "!" = 0 /\
  Vigenere.decrypt_shift "!" = -63 /\
  Vigenere.decryptChar (str "!") "b" 0 = Ok "m"%char /\
  Vigenere.run_decrypt s (str "b") (str "!") = Ok (str "m") /\
  to_char (Z.rem (int_of_char "b" - 97 - 0 + 26) 26 + 97) = "b"%char.
Proof.
  rewrite vigenere_run_decrypt_loop.
  repeat split; vm_compute; reflexivity.
Qed.

(** Neither loop can throw. *)
Lemma vigenere_encrypt_loop_no_throw (K M : list ascii) (i : nat) (out : list ascii) :
  ~ signals_error (Vigenere.encrypt_loop K M i out).
Proof.
  destruct K as [|k K].
  - revert i out. induction M as [|c M IH]; intros i out [e He]; simpl in He.
    + discriminate He.
    + destruct (isalpha (int_of_char c)) eqn:A.
      * unfold Vigenere.encryptChar in He.
        unfold isalpha in A.
        destruct (isupper (int_of_char c)); [discriminate He|].
        destruct (islower (int_of_char c)); discriminate.
      * apply (IH (S i) (out ++ [c])). now exists e.
  - rewrite vigenere_encrypt_loop_indexed by discriminate.
    intros [e He]. discriminate He.
Qed.

Lemma vigenere_decrypt_loop_no_throw (K M : list ascii) (i : nat) (out : list ascii) :
  ~ signals_error (Vigenere.decrypt_loop K M i out).
Proof.
  destruct K as [|k K].
  - revert i out. induction M as [|c M IH]; intros i out [e He]; simpl in He.
    + discriminate He.
    + destruct (isalpha (int_of_char c)) eqn:A.
      * discriminate He.
      * apply (IH (S i) (out ++ [c])). now exists e.
  - rewrite vigenere_decrypt_loop_indexed by discriminate.
    intros [e He]. discriminate He.
Qed.

Lemma vigenere_encrypt_loop_no_letter (K M : list ascii) (i : nat) (out : list ascii) :
  has_letter M = false ->
  Vigenere.encrypt_loop K M i out = Ok (out ++ M) /\
  Vigenere.decrypt_loop K M i out = Ok (out ++ M).
Proof.
  revert i out. induction M as [|c M IH]; intros i out H; simpl.
  - now rewrite app_nil_r.
  - simpl in H. apply orb_false_iff in H as [Hc HM].
    rewrite Hc. destruct (IH (S i) (out ++ [c]) HM) as [-> ->].
    rewrite <- app_assoc. split; reflexivity.
Qed.

(** C4, as the code has it: an empty keyword is stored like any other, and
    no transform signals an error; a message without letters is returned
    as it is by both transforms. *)
Theorem vigenere_empty_keyword_no_error (s : Vigenere.t) (M : list ascii) :
  Vigenere.messageKey (Vigenere.setKeyMessage [] s) = [] /\
  ~ signals_error (Vigenere.run_encrypt s M []) /\
  ~ signals_error (Vigenere.run_decrypt s M []) /\
  (has_letter M = false ->
   Vigenere.run_encrypt s M [] = Ok M /\ Vigenere.run_decrypt s M [] = Ok M).
Proof.
  rewrite vigenere_run_encrypt_loop, vigenere_run_decrypt_loop.
  split; [reflexivity|].
  split; [apply vigenere_encrypt_loop_no_throw|].
  split; [apply vigenere_decrypt_loop_no_throw|].
  intros H. apply (vigenere_encrypt_loop_no_letter [] M 0 [] H).
Qed.

Lemma vigenere_empty_keyword_no_error_witness :
  Vigenere.run_encrypt (Vigenere.mk new_object []) (str "1 + 2") [] = Ok (str "1 + 2") /\
  Vigenere.run_decrypt (Vigenere.mk new_object []) (str "1 + 2") [] = Ok (str "1 + 2").
Proof.
  exact (proj2 (proj2 (proj2
    (vigenere_empty_keyword_no_error (Vigenere.mk new_object []) (str "1 + 2"))))
    eq_refl).
Defined.

(** C4, as stated, fails: the empty keyword is accepted at configuration,
    a transform with it returns a result without any error, and on a letter
    the remainder by zero is taken. *)
Lemma vigenere_empty_keyword_not_rejected :
  Vigenere.messageKey (Vigenere.setKeyMessage [] (Vigenere.mk new_object (str "K"))) = [] /\
  Vigenere.run_encrypt (Vigenere.mk new_object []) (str "1 + 2") [] = Ok (str "1 + 2") /\
  ~ signals_error (Vigenere.run_encrypt (Vigenere.mk new_object []) (str "1 + 2") []) /\
  Vigenere.run_encrypt (Vigenere.mk new_object []) (str "a") [] = Undefined /\
  ~ signals_error (Vigenere.run_encrypt (Vigenere.mk new_object []) (str "a") []).
Proof.
  repeat split; try reflexivity; intros [e He]; discriminate He.
Qed.

(** ** The stored result across calls *)

Lemma a1z26_encrypt_loop_app (msg out : list ascii) :
  A1Z26.encrypt_loop msg out = out ++ A1Z26.encrypt_loop msg [].
Proof.
  revert out. induction msg as [|c rest IH]; intros out; simpl.
  - now rewrite app_nil_r.
  - destruct (isalpha (int_of_char c)); [|destruct (isdigit (int_of_char c))];
      rewrite IH; symmetry; rewrite IH; now rewrite app_assoc.
Qed.

Lemma a1z26_decrypt_loop_app (M : list ascii) :
  forall out,
    A1Z26.decrypt_loop M out
    = (r <- A1Z26.decrypt_loop M [] ;; Ok (out ++ r)).
Proof.
  induction M as [| a | a b l IHl IHbl] using list_pair_ind; intros out.
  - simpl. now rewrite app_nil_r.
  - destruct (isdigit (int_of_char a)) eqn:D.
    + rewrite !(a1z26_decrypt_loop_lone_digit a _ D). reflexivity.
    + simpl. rewrite D. destruct (isalpha (int_of_char a)); reflexivity.
  - destruct (isdigit (int_of_char a)) eqn:D.
    + rewrite !(a1z26_decrypt_loop_group a b l _ D).
      rewrite IHl. symmetry. rewrite IHl.
      destruct (A1Z26.decrypt_loop l []); simpl; try reflexivity.
      now rewrite <- app_assoc.
    + rewrite !(a1z26_decrypt_loop_other a (b :: l) _ D).
      rewrite IHbl. symmetry. rewrite IHbl.
      destruct (A1Z26.decrypt_loop (b :: l) []); simpl; try reflexivity.
      now rewrite <- app_assoc.
Qed.

Lemma atbash_encrypt_appends (e : Encryption) :
  getEncryptedMessage (Atbash.encrypt e)
  = encrypted_message e ++ Atbash.run_encrypt (message e).
Proof.
  unfold Atbash.run_encrypt, Atbash.encrypt, getEncryptedMessage. simpl.
  now rewrite !atbash_encrypt_loop_map.
Qed.

Lemma a1z26_encrypt_appends (e : Encryption) :
  getEncryptedMessage (A1Z26.encrypt e)
  = encrypted_message e ++ A1Z26.run_encrypt (message e).
Proof.
  unfold A1Z26.run_encrypt, A1Z26.encrypt, getEncryptedMessage. simpl.
  apply a1z26_encrypt_loop_app.
Qed.

Lemma a1z26_decrypt_appends (e : Encryption) :
  A1Z26.decrypt e
  = (r <- A1Z26.run_decrypt (message e) ;;
     Ok (with_result e (encrypted_message e ++ r))).
Proof.
  rewrite a1z26_run_decrypt_loop. unfold A1Z26.decrypt.
  rewrite a1z26_decrypt_loop_app.
  destruct (A1Z26.decrypt_loop (message e) []); reflexivity.
Qed.

(** * Further properties of the code *)

(** ** Characters and lists *)

Lemma int_of_char_to_char_byte (z : Z) :
  0 <= z < 256 ->
  int_of_char (to_char z) = if z <? 128 then z else z - 256.
Proof.
  intros Hz. unfold int_of_char. rewrite byte_of_to_char.
  now rewrite Z.mod_small by lia.
Qed.

Lemma to_char_inj_byte (a b : Z) :
  0 <= a < 256 -> 0 <= b < 256 -> to_char a = to_char b -> a = b.
Proof.
  intros Ha Hb E. apply (f_equal byte_of) in E.
  rewrite !byte_of_to_char, !Z.mod_small in E by lia. exact E.
Qed.

Lemma map_fixes_iff {A : Type} (h : A -> A) (l : list A) :
  map h l = l <-> forall x, In x l -> h x = x.
Proof.
  induction l as [|a l IH]; simpl.
  - split; [intros _ x [] | reflexivity].
  - split.
    + intros E. injection E as Ea El. intros x [<- | Hx]; [exact Ea|].
      now apply IH.
    + intros H. f_equal; [apply H; now left|].
      apply IH. intros x Hx. apply H. now right.
Qed.

(** ** Caesar *)

Lemma caesar_decryptChar_letter (key : Z) (c : ascii) :
  isalpha (int_of_char c) = true ->
  Caesar.decryptChar key c = to_char (int_of_char c - key).
Proof.
  intros A. unfold Caesar.decryptChar.
  classify (int_of_char c).
  - f_equal; lia.
  - f_equal; lia.
  - class_bounds; lia.
Qed.

Lemma caesar_char_roundtrip_iff (key : Z) (c : ascii) :
  0 <= key <= 25 ->
  guarded (Caesar.decryptChar key) (guarded (Caesar.encryptChar key) c) = c
  <-> (isalpha (int_of_char c) = true -> isalpha (int_of_char c + key) = true).
Proof.
  intros Hk. unfold guarded at 2.
  destruct (isalpha (int_of_char c)) eqn:A.
  - rewrite (caesar_encryptChar_letter key c A).
    pose proof A as B. apply isalpha_iff in B.
    assert (R : 0 <= int_of_char c + key < 256) by lia.
    pose proof (int_of_char_to_char_byte _ R) as V.
    unfold guarded. split.
    + intros E _.
      destruct (isalpha (int_of_char c + key)) eqn:A'; [reflexivity|].
      exfalso. apply isalpha_false_iff in A'.
      assert (N : isalpha (int_of_char (to_char (int_of_char c + key))) = false).
      { rewrite V. destruct (Z.ltb_spec (int_of_char c + key) 128); class_goal. }
      rewrite N in E. apply (f_equal int_of_char) in E. rewrite V in E.
      destruct (Z.ltb_spec (int_of_char c + key) 128); lia.
    + intros H. specialize (H eq_refl). pose proof H as H'.
      apply isalpha_iff in H'.
      replace (int_of_char (to_char (int_of_char c + key)))
        with (int_of_char c + key) in *
        by (rewrite V; destruct (Z.ltb_spec (int_of_char c + key) 128); lia).
      rewrite H. rewrite caesar_decryptChar_letter
        by (rewrite int_of_char_to_char by lia; exact H).
      rewrite int_of_char_to_char by lia.
      rewrite <- (to_char_int_of_char c) at 2. f_equal; lia.
  - unfold guarded. rewrite A. split; [discriminate | reflexivity].
Qed.

(** X1: the Caesar round trip holds exactly on the messages none of whose
    letters is moved out of the letters by the stored key. *)
Theorem caesar_roundtrip_iff (s s' : Caesar.t) (M : list ascii) (k : Z) :
  Caesar.run_decrypt s' (Caesar.run_encrypt s M k) k = M
  <-> (forall c, In c M -> isalpha (int_of_char c) = true ->
                 isalpha (int_of_char c + k mod 26) = true).
Proof.
  pose proof (Z.mod_pos_bound k 26 ltac:(lia)) as B.
  rewrite caesar_run_encrypt_map, caesar_run_decrypt_map, map_map.
  rewrite map_fixes_iff.
  split; intros H c Hc.
  - apply caesar_char_roundtrip_iff; [lia | now apply H].
  - apply caesar_char_roundtrip_iff; [lia | now apply H].
Qed.

(** X2: both Caesar transforms give one character per character of the
    message, whatever the message, and a character that is no letter stays
    where it is. *)
Theorem caesar_keeps_length_and_nonletters
  (s : Caesar.t) (M : list ascii) (k : Z) :
  List.length (Caesar.run_encrypt s M k) = List.length M /\
  List.length (Caesar.run_decrypt s M k) = List.length M /\
  (forall (i : nat) (c : ascii),
      nth_error M i = Some c ->
      isalpha (int_of_char c) = false ->
      nth_error (Caesar.run_encrypt s M k) i = Some c /\
      nth_error (Caesar.run_decrypt s M k) i = Some c).
Proof.
  rewrite caesar_run_encrypt_map, caesar_run_decrypt_map.
  rewrite !length_map. split; [reflexivity|]. split; [reflexivity|].
  intros i c Hi A. rewrite !nth_error_map, Hi. simpl.
  unfold guarded. rewrite A. split; reflexivity.
Qed.

Lemma caesar_keeps_length_and_nonletters_witness :
  List.length (Caesar.run_encrypt (Caesar.mk new_object 0) (str "HELLO") 5) = 5%nat /\
  nth_error (Caesar.run_encrypt (Caesar.mk new_object 0) (str "a, b") 5) 1
    = Some ","%char.
Proof.
  split.
  - exact (proj1 (caesar_keeps_length_and_nonletters
                    (Caesar.mk new_object 0) (str "HELLO") 5)).
  - exact (proj1 (proj2 (proj2 (caesar_keeps_length_and_nonletters
                    (Caesar.mk new_object 0) (str "a, b") 5))
                  1%nat ","%char eq_refl eq_refl)).
Defined.

(** X3: a key that is a multiple of 26 is stored as 0, and both transforms
    return the message. *)
Theorem caesar_multiple_of_26_is_identity (s : Caesar.t) (M : list ascii) (j : Z) :
  Caesar.key (Caesar.setKey (26 * j) s) = 0 /\
  Caesar.run_encrypt s M (26 * j) = M /\
  Caesar.run_decrypt s M (26 * j) = M.
Proof.
  rewrite setKey_value, caesar_run_encrypt_map, caesar_run_decrypt_map.
  replace ((26 * j) mod 26) with 0
    by (rewrite Z.mul_comm, Z.mod_mul by lia; reflexivity).
  split; [reflexivity|].
  split; apply map_fixes_iff; intros c _; unfold guarded;
    destruct (isalpha (int_of_char c)) eqn:A; try reflexivity.
  - rewrite (caesar_encryptChar_letter 0 c A), Z.add_0_r.
    apply to_char_int_of_char.
  - rewrite (caesar_decryptChar_letter 0 c A), Z.sub_0_r.
    apply to_char_int_of_char.
Qed.

(** X4: on a letter, [encryptChar] agrees with the documented
    [(x + k) mod 26] exactly when the sum stays within the alphabet, and
    [decryptChar] agrees with [(x - k) mod 26] exactly when the difference
    is not negative. *)
Theorem caesar_chars_agree_with_mod26_iff (key : Z) (c : ascii) :
  0 <= key <= 25 ->
  isalpha (int_of_char c) = true ->
  (Caesar.encryptChar key c
     = to_char ((int_of_char c - letter_base c + key) mod 26 + letter_base c)
   <-> int_of_char c - letter_base c + key < 26) /\
  (Caesar.decryptChar key c
     = to_char ((int_of_char c - letter_base c - key) mod 26 + letter_base c)
   <-> key <= int_of_char c - letter_base c).
Proof.
  intros Hk A.
  rewrite (caesar_encryptChar_letter key c A), (caesar_decryptChar_letter key c A).
  pose proof (Z.mod_pos_bound (int_of_char c - letter_base c + key) 26 ltac:(lia)) as B1.
  pose proof (Z.mod_pos_bound (int_of_char c - letter_base c - key) 26 ltac:(lia)) as B2.
  pose proof (Z.div_mod (int_of_char c - letter_base c + key) 26 ltac:(lia)) as D1.
  pose proof (Z.div_mod (int_of_char c - letter_base c - key) 26 ltac:(lia)) as D2.
  assert (L : 0 <= int_of_char c - letter_base c <= 25 /\
              (letter_base c = 65 \/ letter_base c = 97)).
  { unfold letter_base. classify (int_of_char c); class_bounds; lia. }
  split; split.
  - intros E. apply to_char_inj_byte in E; lia.
  - intros H. f_equal. rewrite Z.mod_small; lia.
  - intros E. apply to_char_inj_byte in E; lia.
  - intros H. f_equal. rewrite Z.mod_small; lia.
Qed.

Lemma caesar_chars_agree_with_mod26_iff_witness :
  (Caesar.encryptChar 3 "Y"
     = to_char ((int_of_char "Y" - letter_base "Y" + 3) mod 26 + letter_base "Y")
   <-> int_of_char "Y" - letter_base "Y" + 3 < 26) /\
  (Caesar.decryptChar 3 "B"
     = to_char ((int_of_char "B" - letter_base "B" - 3) mod 26 + letter_base "B")
   <-> 3 <= int_of_char "B" - letter_base "B").
Proof.
  split.
  - exact (proj1 (caesar_chars_agree_with_mod26_iff 3 "Y" ltac:(lia) eq_refl)).
  - exact (proj2 (caesar_chars_agree_with_mod26_iff 3 "B" ltac:(lia) eq_refl)).
Defined.

(** ** Vigenere *)

Lemma rem26_small (x : Z) : - 26 < x < 26 -> Z.rem x 26 = x.
Proof.
  intros Hx. destruct (Z.le_gt_cases 0 x).
  - apply Z.rem_small; lia.
  - rewrite <- (Z.opp_involutive x) at 1. rewrite Z.rem_opp_l by lia.
    rewrite Z.rem_small by lia. lia.
Qed.

Lemma indexed_from_cons (i : nat) (c : ascii) (M : list ascii) :
  indexed_from i (c :: M) = (i, c) :: indexed_from (S i) M.
Proof. reflexivity. Qed.

Lemma nth_error_indexed_from (M : list ascii) :
  forall (i j : nat),
    nth_error (indexed_from i M) j = option_map (pair (i + j)%nat) (nth_error M j).
Proof.
  induction M as [|c M IH]; intros i [|j]; try reflexivity.
  - rewrite indexed_from_cons. simpl. now rewrite Nat.add_0_r.
  - rewrite indexed_from_cons. simpl. rewrite IH. now rewrite Nat.add_succ_r.
Qed.

Lemma length_indexed_from (i : nat) (M : list ascii) :
  List.length (indexed_from i M) = List.length M.
Proof.
  unfold indexed_from. rewrite length_combine, length_seq. apply Nat.min_id.
Qed.

(** X5: with a non-empty keyword both Vigenere transforms return a result
    of the length of the message; the character at index [j] is made from
    the message character at [j] and the keyword character at
    [j mod keywordLength]: forwards a letter is moved by the offset of that
    keyword character (the plain sum), backwards by [decryptChar]'s shift,
    and a character that is no letter is copied. *)
Theorem vigenere_char_at_index
  (s : Vigenere.t) (K M : list ascii) (j : nat) (c : ascii) :
  K <> [] ->
  nth_error M j = Some c ->
  (exists e, Vigenere.run_encrypt s M K = Ok e /\
             List.length e = List.length M /\
             nth_error e j =
               Some (if isalpha (int_of_char c)
                     then to_char (int_of_char c +
                            Vigenere.encryptKeyChar
                              (nth (j mod List.length K)%nat K zero))
                     else c)) /\
  (exists d, Vigenere.run_decrypt s M K = Ok d /\
             List.length d = List.length M /\
             nth_error d j =
               Some (if isalpha (int_of_char c)
                     then to_char (Z.rem (int_of_char c - letter_base c
                              - Vigenere.decrypt_shift
                                  (nth (j mod List.length K)%nat K zero) + 26) 26
                            + letter_base c)
                     else c)).
Proof.
  intros HK Hj.
  rewrite vigenere_run_encrypt_loop, vigenere_run_decrypt_loop.
  rewrite vigenere_encrypt_loop_indexed, vigenere_decrypt_loop_indexed by exact HK.
  split; eexists; (split; [reflexivity|]); simpl;
    rewrite length_map, length_indexed_from, nth_error_map,
      nth_error_indexed_from, Hj; simpl; (split; [reflexivity|]).
  - reflexivity.
  - f_equal. unfold backward_char, letter_base, isalpha. fold (key_char K j).
    destruct (isupper (int_of_char c)); [reflexivity|].
    destruct (islower (int_of_char c)); reflexivity.
Qed.

Lemma vigenere_char_at_index_witness :
  (exists e, Vigenere.run_encrypt (Vigenere.mk new_object []) (str "a b") (str "BC") = Ok e /\
             List.length e = 3%nat /\ nth_error e 2 = Some "d"%char) /\
  (exists d, Vigenere.run_decrypt (Vigenere.mk new_object []) (str "a b") (str "BC") = Ok d /\
             List.length d = 3%nat /\ nth_error d 2 = Some "z"%char).
Proof.
  exact (vigenere_char_at_index (Vigenere.mk new_object []) (str "BC") (str "a b")
           2 "b" ltac:(discriminate) eq_refl).
Defined.

(** X6: when the keyword character is a letter, [decryptChar] maps a letter
    to the letter of the same case that lies the keyword letter's 1-based
    position before it, wrapping round the alphabet. *)
Theorem vigenere_decryptChar_wraps (K : list ascii) (c : ascii) (i : nat) :
  K <> [] ->
  isalpha (int_of_char (key_char K i)) = true ->
  isalpha (int_of_char c) = true ->
  exists d,
    Vigenere.decryptChar K c i = Ok d /\
    int_of_char d
      = letter_base c
        + (int_of_char c - letter_base c - position (key_char K i)) mod 26 /\
    isupper (int_of_char d) = isupper (int_of_char c) /\
    islower (int_of_char d) = islower (int_of_char c).
Proof.
  intros HK Hk Hc.
  rewrite (vigenere_decryptChar_backward K c i HK).
  eexists; split; [reflexivity|].
  destruct (vigenere_shift_of_letter _ Hk) as (E1 & E2 & B).
  unfold backward_char. rewrite E1, E2 in *.
  set (p := position (key_char K i)) in *.
  pose proof (Z.mod_pos_bound (int_of_char c - letter_base c - p) 26 ltac:(lia)) as Bm.
  unfold letter_base in *.
  classify (int_of_char c).
  - rewrite Z.rem_mod_nonneg by lia.
    replace (int_of_char c - 65 - p + 26)
      with (int_of_char c - 65 - p + 1 * 26) by lia.
    rewrite Z.mod_add by lia.
    rewrite int_of_char_to_char by lia.
    repeat split; [lia | class_goal |].
    symmetry. transitivity false; [| symmetry]; class_goal.
  - rewrite Z.rem_mod_nonneg by lia.
    replace (int_of_char c - 97 - p + 26)
      with (int_of_char c - 97 - p + 1 * 26) by lia.
    rewrite Z.mod_add by lia.
    rewrite int_of_char_to_char by lia.
    repeat split; [lia | | class_goal].
    class_goal.
  - class_bounds; lia.
Qed.

Lemma vigenere_decryptChar_wraps_witness :
  exists d,
    Vigenere.decryptChar (str "C") "a" 0 = Ok d /\
    int_of_char d = letter_base "a" + (int_of_char "a" - letter_base "a" - 3) mod 26.
Proof.
  destruct (vigenere_decryptChar_wraps (str "C") "a" 0
              ltac:(discriminate) eq_refl eq_refl) as (d & E & V & _).
  exists d. split; [exact E | exact V].
Defined.

Lemma all_letters_key_char (K : list ascii) (i : nat) :
  K <> [] -> all_letters K = true ->
  isalpha (int_of_char (key_char K i)) = true.
Proof.
  intros HK HL. unfold all_letters in HL. rewrite forallb_forall in HL.
  apply HL. unfold key_char. apply nth_In.
  apply Nat.mod_upper_bound. destruct K; [congruence | discriminate].
Qed.

Lemma vigenere_char_roundtrip_iff (K : list ascii) (i : nat) (c : ascii) :
  isalpha (int_of_char (key_char K i)) = true ->
  backward_char K i (forward_char K i c) = c
  <-> stays_in_case K (i, c) = true.
Proof.
  intros Hk.
  destruct (vigenere_shift_of_letter _ Hk) as (E1 & _ & B).
  unfold stays_in_case, forward_char. simpl fst. simpl snd.
  destruct (isalpha (int_of_char c)) eqn:A.
  2:{ rewrite (backward_char_other K i c A). simpl. tauto. }
  simpl negb. rewrite orb_false_l, Z.ltb_lt.
  unfold backward_char. rewrite E1.
  set (o := Vigenere.encryptKeyChar (key_char K i)) in *.
  assert (R : 0 <= int_of_char c + o < 256) by (class_bounds; lia).
  pose proof (int_of_char_to_char_byte _ R) as V.
  set (e := to_char (int_of_char c + o)) in *.
  unfold letter_base.
  destruct (Z.ltb_spec (int_of_char c + o) 128) as [Hlt | Hge].
  - (* the sum is an ASCII code *)
    rewrite V.
    destruct (isupper (int_of_char c)) eqn:U; class_bounds.
    + (* an uppercase letter *)
      classify (int_of_char c + o); class_bounds.
      * replace (int_of_char c + o - 65 - o + 26) with (int_of_char c - 65 + 1 * 26) by lia.
        rewrite Z.rem_mod_nonneg, Z.mod_add, Z.mod_small by lia.
        replace (int_of_char c - 65 + 65) with (int_of_char c) by lia.
        rewrite to_char_int_of_char. split; [lia | reflexivity].
      * replace (int_of_char c + o - 97 - o + 26) with (int_of_char c - 71) by lia.
        rewrite rem26_small by lia.
        split; [|lia]. intros E.
        rewrite <- (to_char_int_of_char c) in E at 2.
        apply to_char_inj_byte in E; lia.
      * split; [|lia]. intros E. subst e.
        rewrite <- (to_char_int_of_char c) in E at 2.
        apply to_char_inj_byte in E; lia.
    + (* a lowercase letter *)
      classify (int_of_char c + o); class_bounds; try lia.
      * replace (int_of_char c + o - 97 - o + 26) with (int_of_char c - 97 + 1 * 26) by lia.
        rewrite Z.rem_mod_nonneg, Z.mod_add, Z.mod_small by lia.
        replace (int_of_char c - 97 + 97) with (int_of_char c) by lia.
        rewrite to_char_int_of_char. split; [lia | reflexivity].
      * split; [|lia]. intros E. subst e.
        rewrite <- (to_char_int_of_char c) in E at 2.
        apply to_char_inj_byte in E; lia.
  - (* the sum has left the ASCII codes: the character is no letter *)
    rewrite V.
    replace (isupper (int_of_char c + o - 256)) with false
      by (symmetry; class_bounds; class_goal).
    replace (islower (int_of_char c + o - 256)) with false
      by (symmetry; class_bounds; class_goal).
    destruct (isupper (int_of_char c)) eqn:U; class_bounds;
      (split; [|lia]); intros E; subst e;
      rewrite <- (to_char_int_of_char c) in E at 2;
      apply to_char_inj_byte in E; lia.
Qed.

Lemma vigenere_lists_roundtrip_iff (K M : list ascii) :
  (forall i, isalpha (int_of_char (key_char K i)) = true) ->
  forall i,
    map (fun p => backward_char K (fst p) (snd p))
        (indexed_from i
           (map (fun p => forward_char K (fst p) (snd p)) (indexed_from i M)))
    = M
    <-> forallb (stays_in_case K) (indexed_from i M) = true.
Proof.
  intros HK. induction M as [|c M IH]; intros i.
  - simpl. tauto.
  - rewrite indexed_from_cons. cbn [map fst snd forallb].
    rewrite indexed_from_cons. cbn [map fst snd].
    rewrite andb_true_iff, <- IH, <- (vigenere_char_roundtrip_iff K i c (HK i)).
    split.
    + intros E. injection E as E1 E2. now split.
    + intros [E1 E2]. now f_equal.
Qed.

(** X7: with a non-empty keyword of letters, decrypting the encryption
    gives the message back exactly when every letter of the message, moved
    forwards by the offset of its keyword letter, stays within the alphabet
    of its case. *)
Theorem vigenere_roundtrip_iff (s s' : Vigenere.t) (K M : list ascii) :
  K <> [] ->
  all_letters K = true ->
  (e <- Vigenere.run_encrypt s M K ;; Vigenere.run_decrypt s' e K) = Ok M
  <-> forallb (stays_in_case K) (indexed_from 0 M) = true.
Proof.
  intros HK HL.
  rewrite vigenere_run_encrypt_loop.
  rewrite vigenere_encrypt_loop_indexed by exact HK.
  cbn [bind app]. rewrite vigenere_run_decrypt_loop.
  rewrite vigenere_decrypt_loop_indexed by exact HK.
  cbn [app].
  rewrite <- (vigenere_lists_roundtrip_iff K M
                (fun i => all_letters_key_char K i HK HL) 0%nat).
  split; [intros E; now injection E | intros ->; reflexivity].
Qed.

Lemma vigenere_roundtrip_iff_witness :
  (e <- Vigenere.run_encrypt (Vigenere.mk new_object []) (str "Hi, all") (str "abc") ;;
   Vigenere.run_decrypt (Vigenere.mk new_object []) e (str "abc"))
  = Ok (str "Hi, all")
  <-> forallb (stays_in_case (str "abc")) (indexed_from 0 (str "Hi, all")) = true.
Proof.
  exact (vigenere_roundtrip_iff (Vigenere.mk new_object []) (Vigenere.mk new_object [])
           (str "abc") (str "Hi, all") ltac:(discriminate) eq_refl).
Defined.

(** The loops depend on the keyword through the two character functions
    only. *)
Lemma vigenere_loops_ext (K1 K2 : list ascii) :
  (forall c i, Vigenere.encryptChar K1 c i = Vigenere.encryptChar K2 c i) ->
  (forall c i, Vigenere.decryptChar K1 c i = Vigenere.decryptChar K2 c i) ->
  forall M i out,
    Vigenere.encrypt_loop K1 M i out = Vigenere.encrypt_loop K2 M i out /\
    Vigenere.decrypt_loop K1 M i out = Vigenere.decrypt_loop K2 M i out.
Proof.
  intros HE HD. induction M as [|c M IH]; intros i out; simpl.
  - split; reflexivity.
  - rewrite HE, HD.
    destruct (isalpha (int_of_char c)).
    + split.
      * destruct (Vigenere.encryptChar K2 c i); simpl; try reflexivity.
        apply IH.
      * destruct (Vigenere.decryptChar K2 c i); simpl; try reflexivity.
        apply IH.
    + apply IH.
Qed.

Lemma vigenere_chars_by_key_at (K1 K2 : list ascii) :
  (forall i, Vigenere.key_at K1 i = Vigenere.key_at K2 i) ->
  (forall c i, Vigenere.encryptChar K1 c i = Vigenere.encryptChar K2 c i) /\
  (forall c i, Vigenere.decryptChar K1 c i = Vigenere.decryptChar K2 c i).
Proof.
  intros H. split; intros c i.
  - unfold Vigenere.encryptChar. now rewrite H.
  - unfold Vigenere.decryptChar. now rewrite H.
Qed.

Lemma length_repeated (K : list ascii) (m : nat) :
  List.length (repeated K m) = (List.length K * m)%nat.
Proof.
  unfold repeated. induction m as [|m IH]; simpl.
  - now rewrite Nat.mul_0_r.
  - rewrite length_app, IH. lia.
Qed.

Lemma nth_repeated (K : list ascii) (d : ascii) (a : nat) :
  (a < List.length K)%nat ->
  forall m r, (r < m)%nat ->
    nth (a + List.length K * r) (repeated K m) d = nth a K d.
Proof.
  intros Ha. unfold repeated.
  induction m as [|m IH]; intros r Hr; [lia|].
  simpl. destruct r as [|r].
  - rewrite Nat.mul_0_r, Nat.add_0_r. now apply app_nth1.
  - rewrite app_nth2 by lia.
    replace (a + List.length K * S r - List.length K)%nat
      with (a + List.length K * r)%nat by lia.
    apply IH. lia.
Qed.

Lemma key_at_repeated (K : list ascii) (m i : nat) :
  Vigenere.key_at (repeated K (S m)) i = Vigenere.key_at K i.
Proof.
  destruct K as [|k K].
  - assert (E : repeated [] (S m) = []).
    { unfold repeated. induction m as [|m IH]; [reflexivity | exact IH]. }
    now rewrite E.
  - set (K0 := k :: K).
    assert (Hn : List.length K0 <> 0%nat) by discriminate.
    assert (N : repeated K0 (S m) <> []).
    { intros E. apply (f_equal (@List.length ascii)) in E.
      rewrite length_repeated in E. simpl in E. lia. }
    rewrite (vigenere_key_at_nonempty _ i N).
    rewrite (vigenere_key_at_nonempty K0 i) by discriminate.
    unfold key_char. f_equal.
    rewrite length_repeated, Nat.Div0.mod_mul_r.
    apply nth_repeated.
    + now apply Nat.mod_upper_bound.
    + apply Nat.mod_upper_bound. discriminate.
Qed.

(** X8: writing the keyword several times in a row changes nothing: both
    transforms give the same outcome as with the keyword written once. *)
Theorem vigenere_keyword_repeated (s : Vigenere.t) (M K : list ascii) (m : nat) :
  Vigenere.run_encrypt s M (repeated K (S m)) = Vigenere.run_encrypt s M K /\
  Vigenere.run_decrypt s M (repeated K (S m)) = Vigenere.run_decrypt s M K.
Proof.
  rewrite !vigenere_run_encrypt_loop, !vigenere_run_decrypt_loop.
  destruct (vigenere_chars_by_key_at (repeated K (S m)) K
              (key_at_repeated K m)) as [HE HD].
  apply (vigenere_loops_ext _ _ HE HD).
Qed.

Lemma lowercase_keeps_shifts (k : ascii) :
  Vigenere.encryptKeyChar (lowercase k) = Vigenere.encryptKeyChar k /\
  Vigenere.decrypt_shift (lowercase k) = Vigenere.decrypt_shift k.
Proof.
  assert (E : int_of_char (lowercase k) = tolower (int_of_char k)).
  { unfold lowercase, tolower. pose proof (int_of_char_bounds k) as B.
    destruct (isupper (int_of_char k)) eqn:U.
    - class_bounds. apply int_of_char_to_char. lia.
    - now rewrite to_char_int_of_char. }
  unfold Vigenere.encryptKeyChar, Vigenere.decrypt_shift. rewrite E.
  unfold tolower.
  destruct (isupper (int_of_char k)) eqn:U.
  - class_bounds.
    replace (isupper (int_of_char k + 32)) with false by (symmetry; class_goal).
    replace (islower (int_of_char k + 32)) with true by (symmetry; class_goal).
    lia.
  - rewrite U. tauto.
Qed.

Lemma key_at_lowercase (K : list ascii) (i : nat) :
  Vigenere.key_at (map lowercase K) i
  = (k <- Vigenere.key_at K i ;; Ok (lowercase k)).
Proof.
  destruct K as [|k K]; [reflexivity|].
  cbn [map Vigenere.key_at bind]. f_equal.
  change (lowercase k :: map lowercase K) with (map lowercase (k :: K)).
  rewrite length_map.
  change zero with (lowercase zero) at 1. apply map_nth.
Qed.

(** X9: the case of the keyword does not matter: both transforms give the
    same outcome with the keyword put in lowercase. *)
Theorem vigenere_keyword_case_insensitive (s : Vigenere.t) (M K : list ascii) :
  Vigenere.run_encrypt s M (map lowercase K) = Vigenere.run_encrypt s M K /\
  Vigenere.run_decrypt s M (map lowercase K) = Vigenere.run_decrypt s M K.
Proof.
  rewrite !vigenere_run_encrypt_loop, !vigenere_run_decrypt_loop.
  apply vigenere_loops_ext; intros c i.
  - unfold Vigenere.encryptChar. rewrite key_at_lowercase.
    destruct (Vigenere.key_at K i) as [k| |]; simpl; try reflexivity.
    now rewrite (proj1 (lowercase_keeps_shifts k)).
  - unfold Vigenere.decryptChar. rewrite key_at_lowercase.
    destruct (Vigenere.key_at K i) as [k| |]; simpl; try reflexivity.
    now rewrite (proj2 (lowercase_keeps_shifts k)).
Qed.

(** ** Atbash *)

(** X10: Atbash gives one character per character of the message; at every
    index the case is kept (uppercase to uppercase, lowercase to lowercase),
    a letter and its image have codes that add up to those of the first and
    last letter of the case, and a character that is no letter is copied. *)
Theorem atbash_keeps_length_and_case (M : list ascii) (i : nat) (c : ascii) :
  nth_error M i = Some c ->
  List.length (Atbash.run_encrypt M) = List.length M /\
  exists e,
    nth_error (Atbash.run_encrypt M) i = Some e /\
    isupper (int_of_char e) = isupper (int_of_char c) /\
    islower (int_of_char e) = islower (int_of_char c) /\
    int_of_char c + int_of_char e
      = (if isalpha (int_of_char c)
         then letter_base c + (letter_base c + 25)
         else 2 * int_of_char c).
Proof.
  intros Hi. rewrite atbash_run_encrypt_map, length_map, nth_error_map, Hi.
  split; [reflexivity|]. cbn [option_map]. eexists; split; [reflexivity|].
  destruct (atbash_encryptChar_keeps_class c) as [EU EL].
  split; [exact EU|]. split; [exact EL|].
  rewrite atbash_encryptChar_value. unfold isalpha, letter_base.
  destruct (isupper (int_of_char c)); cbn [orb]; [lia|].
  destruct (islower (int_of_char c)); lia.
Qed.

Lemma atbash_keeps_length_and_case_witness :
  List.length (Atbash.run_encrypt (str "Ab!")) = 3%nat /\
  exists e, nth_error (Atbash.run_encrypt (str "Ab!")) 1 = Some e /\
            islower (int_of_char e) = true.
Proof.
  destruct (atbash_keeps_length_and_case (str "Ab!") 1 "b" eq_refl)
    as (L & e & N & _ & Lo & _).
  split; [exact L|]. exists e. split; [exact N | exact Lo].
Defined.

Lemma atbash_moves_every_letter (c : ascii) :
  isalpha (int_of_char c) = true -> Atbash.encryptChar c <> c.
Proof.
  intros A E. apply (f_equal int_of_char) in E.
  rewrite atbash_encryptChar_value in E. unfold isalpha in A.
  destruct (isupper (int_of_char c)); [lia|].
  destruct (islower (int_of_char c)); [lia | discriminate].
Qed.

(** X11: Atbash has no fixed letter, so the encryption of a message that
    contains a letter differs from the message. *)
Theorem atbash_changes_messages_with_letters (M : list ascii) :
  has_letter M = true -> Atbash.run_encrypt M <> M.
Proof.
  intros H E. rewrite atbash_run_encrypt_map in E.
  rewrite map_fixes_iff in E.
  unfold has_letter in H. apply existsb_exists in H as (c & Hc & A).
  exact (atbash_moves_every_letter c A (E c Hc)).
Qed.

Lemma atbash_changes_messages_with_letters_witness :
  has_letter (str "1 a") = true /\ Atbash.run_encrypt (str "1 a") <> str "1 a".
Proof.
  split; [reflexivity|].
  exact (atbash_changes_messages_with_letters (str "1 a") eq_refl).
Defined.

(** ** A1Z26 *)

Lemma a1z26_encrypt_loop_units (msg out : list ascii) :
  A1Z26.encrypt_loop msg out = out ++ flat_map a1z26_unit msg.
Proof.
  revert out. induction msg as [|c rest IH]; intros out; simpl.
  - now rewrite app_nil_r.
  - unfold a1z26_unit at 1.
    destruct (isalpha (int_of_char c)); [|destruct (isdigit (int_of_char c))];
      rewrite IH, <- app_assoc; reflexivity.
Qed.

Lemma a1z26_run_encrypt_units (M : list ascii) :
  A1Z26.run_encrypt M = flat_map a1z26_unit M.
Proof.
  unfold A1Z26.run_encrypt, A1Z26.encrypt, getEncryptedMessage. simpl.
  now rewrite a1z26_encrypt_loop_units.
Qed.

(** Decoding consumes what one character was encoded to, and nothing
    more. *)
Lemma a1z26_decrypt_unit (c : ascii) (rest out : list ascii) :
  A1Z26.decrypt_loop (a1z26_unit c ++ rest) out
  = A1Z26.decrypt_loop rest (out ++ [a1z26_back c]).
Proof.
  destruct c as [[] [] [] [] [] [] [] []]; reflexivity.
Qed.

Lemma a1z26_decrypt_units (M out : list ascii) :
  A1Z26.decrypt_loop (flat_map a1z26_unit M) out = Ok (out ++ map a1z26_back M).
Proof.
  revert out. induction M as [|c M IH]; intros out; simpl.
  - now rewrite app_nil_r.
  - rewrite a1z26_decrypt_unit, IH, <- app_assoc. reflexivity.
Qed.

(** X12: for every message, decoding the encoding gives the message with
    each character in lowercase and each ['0'] replaced by a backquote; so a
    message without ['0'] comes back in lowercase, digits and punctuation
    included. *)
Theorem a1z26_roundtrip_every_message (M : list ascii) :
  A1Z26.run_decrypt (A1Z26.run_encrypt M) = Ok (map a1z26_back M) /\
  (forallb (fun c => negb (int_of_char c =? 48)) M = true ->
   A1Z26.run_decrypt (A1Z26.run_encrypt M) = Ok (map lowercase M)).
Proof.
  rewrite a1z26_run_encrypt_units, a1z26_run_decrypt_loop, a1z26_decrypt_units.
  split; [reflexivity|].
  intros H. simpl. f_equal. apply map_ext_in. intros c Hc.
  rewrite forallb_forall in H. specialize (H c Hc).
  unfold a1z26_back. now destruct (int_of_char c =? 48).
Qed.

Lemma a1z26_roundtrip_every_message_witness :
  A1Z26.run_decrypt (A1Z26.run_encrypt (str "Room 12, B!")) = Ok (str "room 12, b!").
Proof.
  exact (proj2 (a1z26_roundtrip_every_message (str "Room 12, B!")) eq_refl).
Defined.

Lemma a1z26_unit_length (c : ascii) :
  List.length (a1z26_unit c)
  = if isalpha (int_of_char c) then 2%nat else 1%nat.
Proof.
  unfold a1z26_unit. destruct (isalpha (int_of_char c)) eqn:A.
  - now rewrite (a1z26_encryptChar_letter c A).
  - destruct (isdigit (int_of_char c)); reflexivity.
Qed.

(** X13: the encoding has one character per character of the message and
    one more per letter. *)
Theorem a1z26_encoding_length (M : list ascii) :
  List.length (A1Z26.run_encrypt M) = (List.length M + count_letters M)%nat.
Proof.
  rewrite a1z26_run_encrypt_units. unfold count_letters.
  induction M as [|c M IH]; simpl; [reflexivity|].
  rewrite length_app, IH, a1z26_unit_length.
  destruct (isalpha (int_of_char c)); simpl; lia.
Qed.

Lemma letter_of_position (n : Z) :
  1 <= n <= 26 ->
  isalpha (int_of_char (letter_of n)) = true /\ position (letter_of n) = n.
Proof.
  intros Hn. unfold position, letter_of, tolower.
  rewrite int_of_char_to_char by lia.
  replace (isupper (96 + n)) with false by (symmetry; class_goal).
  split; [class_goal | lia].
Qed.

(** X14: the round trip in the other direction: a string of two-digit
    groups, each between 01 and 26, is decoded to one lowercase letter per
    group, and encoding those letters gives the string back. *)
Theorem a1z26_groups_roundtrip (ns : list Z) :
  forallb (fun n => (1 <=? n) && (n <=? 26)) ns = true ->
  A1Z26.run_decrypt (flat_map two_digits ns) = Ok (map letter_of ns) /\
  A1Z26.run_encrypt (map letter_of ns) = flat_map two_digits ns.
Proof.
  intros H. rewrite a1z26_run_decrypt_loop, a1z26_run_encrypt_units.
  assert (D : forall out,
             A1Z26.decrypt_loop (flat_map two_digits ns) out
             = Ok (out ++ map letter_of ns)).
  { induction ns as [|n ns IH]; intros out.
    - simpl. now rewrite app_nil_r.
    - cbn [forallb] in H. apply andb_true_iff in H as [Hn Hns].
      apply andb_true_iff in Hn as [H1 H2]. apply Z.leb_le in H1, H2.
      cbn [flat_map map]. unfold two_digits at 1. cbn [app].
      rewrite (a1z26_decrypt_two_digits n) by lia.
      rewrite IH, <- app_assoc by exact Hns.
      unfold letter_of. cbn [app].
      replace (97 + n - 1) with (96 + n) by lia. reflexivity. }
  split; [apply (D [])|]. clear D.
  induction ns as [|n ns IH]; [reflexivity|].
  cbn [flat_map map].
  cbn [forallb] in H. apply andb_true_iff in H as [Hn Hns].
  apply andb_true_iff in Hn as [H1 H2]. apply Z.leb_le in H1, H2.
  destruct (letter_of_position n ltac:(lia)) as [A P].
  rewrite IH by exact Hns.
  f_equal. unfold a1z26_unit. rewrite A, (a1z26_encryptChar_letter _ A), P.
  reflexivity.
Qed.

Lemma a1z26_groups_roundtrip_witness :
  A1Z26.run_decrypt (flat_map two_digits [8; 9; 26]) = Ok (str "hiz") /\
  A1Z26.run_encrypt (map letter_of [8; 9; 26]) = str "080926".
Proof.
  exact (a1z26_groups_roundtrip [8; 9; 26] eq_refl).
Defined.

(** ** The input helpers of the menu program *)

Lemma parse_digits_stops (ds tail : list ascii) (acc : Z) :
  no_digit_first tail = true ->
  parse_digits (ds ++ tail) acc = parse_digits ds acc.
Proof.
  intros Ht. revert acc. induction ds as [|d ds IH]; intros acc; simpl.
  - destruct tail as [|c tail]; [reflexivity|]. simpl in *.
    now destruct (isdigit (int_of_char c)).
  - destruct (isdigit (int_of_char d)); [apply IH | reflexivity].
Qed.

Lemma int_of_long_of_int (v : Z) :
  INT_MIN <= v <= INT_MAX ->
  Main.int_of_long (Z.max Main.LONG_MIN (Z.min Main.LONG_MAX v)) = v.
Proof.
  unfold INT_MIN, INT_MAX, Main.LONG_MIN, Main.LONG_MAX, Main.int_of_long.
  intros Hv. rewrite Z.min_r, Z.max_r by lia.
  rewrite Z.mod_small by lia. lia.
Qed.

Lemma atoi_digit_first (d : ascii) (r : list ascii) :
  isdigit (int_of_char d) = true ->
  Main.atoi (d :: r)
  = Main.int_of_long
      (Z.max Main.LONG_MIN (Z.min Main.LONG_MAX (parse_digits (d :: r) 0))).
Proof.
  intros D. destruct (isdigit_not_space_sign d D) as (S & M & P).
  unfold Main.atoi. cbn [skip_space]. rewrite S, M, P. reflexivity.
Qed.

(** X15: [validInput] looks at the leading digits only: what follows them
    is ignored, so a line such as "2abc" is accepted as 2; a line that
    starts with another character is rejected with value 0. *)
Theorem validInput_reads_leading_digits (d c : ascii) (ds tail : list ascii) :
  isdigit (int_of_char d) = true ->
  all_digits ds = true ->
  no_digit_first tail = true ->
  isdigit (int_of_char c) = false ->
  Main.validInput ((d :: ds) ++ tail) = Main.validInput (d :: ds) /\
  Main.validInput (d :: tail)
    = Ok ((1 <=? int_of_char d - 48) && (int_of_char d - 48 <=? 4),
          int_of_char d - 48) /\
  Main.validInput (c :: tail) = Ok (false, 0).
Proof.
  intros D Hds Ht C. split; [|split].
  - cbn [app]. unfold Main.validInput. rewrite D. cbn [negb].
    rewrite !(atoi_digit_first d _ D).
    change (d :: ds ++ tail) with ((d :: ds) ++ tail).
    now rewrite (parse_digits_stops (d :: ds) tail 0 Ht).
  - unfold Main.validInput. rewrite D. cbn [negb].
    rewrite (atoi_digit_first d _ D).
    change (d :: tail) with ([d] ++ tail).
    rewrite (parse_digits_stops [d] tail 0 Ht).
    cbn [parse_digits]. rewrite D.
    apply isdigit_iff in D.
    replace (10 * 0 + (int_of_char d - 48)) with (int_of_char d - 48) by lia.
    rewrite int_of_long_of_int by (unfold INT_MIN, INT_MAX; lia).
    reflexivity.
  - unfold Main.validInput. now rewrite C.
Qed.

Lemma validInput_reads_leading_digits_witness :
  Main.validInput (str "21abc") = Main.validInput (str "21") /\
  Main.validInput (str "2abc") = Ok (true, 2) /\
  Main.validInput (str "xabc") = Ok (false, 0).
Proof.
  exact (validInput_reads_leading_digits "2" "x" (str "1") (str "abc")
           eq_refl eq_refl eq_refl eq_refl).
Defined.

Lemma validInput_returns (input : list ascii) :
  exists b n, Main.validInput input = Ok (b, n).
Proof.
  unfold Main.validInput.
  destruct (negb _); eexists; eexists; reflexivity.
Qed.

Lemma validInput_true_range (input : list ascii) (v : Z) :
  Main.validInput input = Ok (true, v) -> 1 <= v <= 4.
Proof.
  unfold Main.validInput.
  destruct (negb _); [discriminate|].
  intros E. injection E as E1 E2. subst v.
  apply andb_true_iff in E1 as [H1 H2]. apply Z.leb_le in H1, H2. lia.
Qed.

Lemma getUserInput_step (l : list ascii) (lines : list (list ascii)) :
  Main.getUserInput (l :: lines)
  = match Main.validInput l with
    | Ok (true, v) => Some (v, lines)
    | _ => Main.getUserInput lines
    end.
Proof.
  cbn [Main.getUserInput].
  destruct (validInput_returns l) as (b & n & ->). destruct b; reflexivity.
Qed.

(** X16: [getUserInput] returns exactly when some line is accepted by
    [validInput]: it then returns what [validInput] read from the first such
    line, a value between 1 and 4, having rejected every line before it (an
    empty line is rejected like any other) and leaving the lines after it
    to be read; when every line is rejected it does not return. *)
Theorem getUserInput_returns_choice
  (lines rest : list (list ascii)) (v : Z) :
  (Main.getUserInput lines = Some (v, rest) <->
   exists skipped input,
     lines = skipped ++ input :: rest /\
     Main.validInput input = Ok (true, v) /\
     Forall (fun l => exists n, Main.validInput l = Ok (false, n)) skipped) /\
  (Main.getUserInput lines = Some (v, rest) -> 1 <= v <= 4) /\
  (Main.getUserInput lines = None <->
   Forall (fun l => exists n, Main.validInput l = Ok (false, n)) lines) /\
  Main.validInput [] = Ok (false, 0).
Proof.
  assert (R : Main.getUserInput lines = Some (v, rest) ->
              1 <= v <= 4 /\
              exists skipped input,
                lines = skipped ++ input :: rest /\
                Main.validInput input = Ok (true, v) /\
                Forall (fun l => exists n, Main.validInput l = Ok (false, n)) skipped).
  { induction lines as [|l lines IH]; intros H; [discriminate H|].
    rewrite getUserInput_step in H.
    destruct (validInput_returns l) as (b & n & V). rewrite V in H.
    destruct b.
    - injection H as -> ->. split; [exact (validInput_true_range l v V)|].
      exists [], l. repeat split; [exact V | constructor].
    - destruct (IH H) as (Rg & skipped & input & E & Vi & F).
      split; [exact Rg|]. exists (l :: skipped), input.
      repeat split; [now rewrite E | exact Vi |].
      constructor; [now exists n | exact F]. }
  split; [split|split; [|split]].
  - intros H. exact (proj2 (R H)).
  - intros (skipped & input & -> & Vi & F). clear R.
    induction F as [|l skipped [n Hl] F IH]; cbn [app];
      rewrite getUserInput_step.
    + now rewrite Vi.
    + rewrite Hl. exact IH.
  - intros H. exact (proj1 (R H)).
  - clear R. induction lines as [|l lines IH].
    + split; [constructor | reflexivity].
    + rewrite getUserInput_step.
      destruct (validInput_returns l) as (b & n & V). rewrite V.
      destruct b.
      * split; [discriminate|]. intros F. inversion F as [|? ? [m Hm] ?].
        rewrite V in Hm. discriminate Hm.
      * rewrite IH. split.
        -- intros F. constructor; [now exists n | exact F].
        -- intros F. now inversion F.
  - reflexivity.
Qed.

Lemma getUserInput_returns_choice_witness :
  Main.getUserInput [str ""; str "x"; str "7"; str "3 "; str "E"]
  = Some (3, [str "E"]).
Proof.
  apply (proj2 (proj1 (getUserInput_returns_choice
           [str ""; str "x"; str "7"; str "3 "; str "E"] [str "E"] 3))).
  exists [str ""; str "x"; str "7"], (str "3 ").
  repeat split.
  repeat constructor; eexists; reflexivity.
Defined.

Lemma key_chars_ok_later (r : list ascii) (i : nat) :
  Main.key_chars_ok r (S i) = all_digits r.
Proof.
  revert i. induction r as [|c r IH]; intros i; [reflexivity|].
  cbn [Main.key_chars_ok all_digits forallb]. fold (all_digits r).
  rewrite IH. destruct (isdigit (int_of_char c)); reflexivity.
Qed.

Lemma key_chars_ok_first (c : ascii) (r : list ascii) :
  Main.key_chars_ok (c :: r) 0
  = (isdigit (int_of_char c) || (int_of_char c =? 45)) && all_digits r.
Proof.
  cbn [Main.key_chars_ok]. rewrite key_chars_ok_later.
  destruct (isdigit (int_of_char c)), (int_of_char c =? 45); reflexivity.
Qed.

Lemma stoi_checked (key : list ascii) :
  Main.key_chars_ok key 0 = true ->
  stoi key
  = if existsb (fun c => isdigit (int_of_char c)) key
    then if in_int (key_value key) then Ok (key_value key) else Throw out_of_range
    else Throw invalid_argument.
Proof.
  destruct key as [|c r]; [reflexivity|].
  rewrite key_chars_ok_first. intros H.
  apply andb_true_iff in H as [Hc Hr].
  destruct (isdigit (int_of_char c)) eqn:D.
  - destruct (isdigit_not_space_sign c D) as (S & M & P).
    unfold stoi, key_value, in_int. cbn [skip_space existsb].
    rewrite S, M, P, D. reflexivity.
  - cbn [orb] in Hc. pose proof Hc as E. apply Z.eqb_eq in E.
    assert (S : isspace (int_of_char c) = false) by (rewrite E; reflexivity).
    unfold stoi, key_value, in_int. cbn [skip_space existsb].
    rewrite S, Hc, D. cbn [orb].
    destruct r as [|d r]; [reflexivity|].
    cbn [all_digits forallb] in Hr. apply andb_true_iff in Hr as [Hd _].
    cbn [existsb]. rewrite Hd. reflexivity.
Qed.

(** X17: [readKey] skips the lines that hold a character other than a digit
    or a leading ['-'], and converts the first line that passes: a line
    with a digit gives its number when that fits an [int] and throws
    [out_of_range] otherwise; a line without a digit (the empty line, or
    "-" alone) throws [invalid_argument], and so does the end of the
    input. *)
Theorem readKey_first_checked_line
  (skipped rest : list (list ascii)) (key : list ascii) :
  Forall (fun l => Main.key_chars_ok l 0 = false) skipped ->
  Main.key_chars_ok key 0 = true ->
  Main.readKey (skipped ++ key :: rest)
    = (if existsb (fun c => isdigit (int_of_char c)) key
       then if in_int (key_value key)
            then Ok (key_value key, rest) else Throw out_of_range
       else Throw invalid_argument) /\
  Main.readKey skipped = Throw invalid_argument.
Proof.
  intros F K. induction F as [|l skipped Hl F IH]; cbn [app Main.readKey].
  - rewrite K, (stoi_checked key K). split; [|reflexivity].
    destruct (existsb _ key); [|reflexivity].
    destruct (in_int (key_value key)); reflexivity.
  - rewrite Hl. exact IH.
Qed.

Lemma readKey_first_checked_line_witness :
  Main.readKey ([str "abc"; str "1-2"] ++ str "-3" :: [str "x"]) = Ok (-3, [str "x"]) /\
  Main.readKey [str "abc"; str "1-2"] = Throw invalid_argument.
Proof.
  exact (readKey_first_checked_line [str "abc"; str "1-2"] [str "x"] (str "-3")
           ltac:(repeat constructor) eq_refl).
Defined.

(** ** Vigenere without a keyword *)

Lemma vigenere_chars_undefined_without_keyword (c : ascii) (i : nat) :
  isalpha (int_of_char c) = true ->
  Vigenere.encryptChar [] c i = Undefined /\
  Vigenere.decryptChar [] c i = Undefined.
Proof.
  intros A. unfold Vigenere.encryptChar, Vigenere.decryptChar. simpl.
  unfold isalpha in A.
  destruct (isupper (int_of_char c)); [split; reflexivity|].
  destruct (islower (int_of_char c)); [split; reflexivity | discriminate].
Qed.

Lemma vigenere_loops_undefined_without_keyword (M : list ascii) :
  has_letter M = true ->
  forall i out,
    Vigenere.encrypt_loop [] M i out = Undefined /\
    Vigenere.decrypt_loop [] M i out = Undefined.
Proof.
  induction M as [|c M IH]; intros H i out; [discriminate H|].
  cbn [has_letter existsb] in H. cbn [Vigenere.encrypt_loop Vigenere.decrypt_loop].
  destruct (isalpha (int_of_char c)) eqn:A.
  - destruct (vigenere_chars_undefined_without_keyword c i A) as [-> ->].
    split; reflexivity.
  - apply IH. exact H.
Qed.

(** X18: with an empty keyword, a message that contains a letter takes
    both transforms to the remainder by the keyword length 0: the outcome
    is undefined, whatever precedes the first letter. *)
Theorem vigenere_empty_keyword_letter_undefined (s : Vigenere.t) (M : list ascii) :
  has_letter M = true ->
  Vigenere.run_encrypt s M [] = Undefined /\
  Vigenere.run_decrypt s M [] = Undefined.
Proof.
  intros H. rewrite vigenere_run_encrypt_loop, vigenere_run_decrypt_loop.
  apply (vigenere_loops_undefined_without_keyword M H).
Qed.

Lemma vigenere_empty_keyword_letter_undefined_witness :
  Vigenere.run_encrypt (Vigenere.mk new_object []) (str "12 a") [] = Undefined /\
  Vigenere.run_decrypt (Vigenere.mk new_object []) (str "12 a") [] = Undefined.
Proof.
  exact (vigenere_empty_keyword_letter_undefined
           (Vigenere.mk new_object []) (str "12 a") eq_refl).
Defined.

(** ** The stored result: what each transform leaves in it *)

Lemma vigenere_loops_expected (K M : list ascii) :
  Vigenere.encrypt_loop K M 0 [] = vigenere_expected vigenere_forward K M /\
  Vigenere.decrypt_loop K M 0 [] = vigenere_expected vigenere_backward K M.
Proof.
  destruct K as [|k K]; cbn [vigenere_expected].
  - destruct (has_letter M) eqn:H.
    + apply (vigenere_loops_undefined_without_keyword M H).
    + apply (vigenere_encrypt_loop_no_letter [] M 0 [] H).
  - rewrite vigenere_encrypt_loop_indexed, vigenere_decrypt_loop_indexed
      by discriminate.
    split; reflexivity.
Qed.

Lemma vigenere_encrypt_expected (m old K : list ascii) :
  Vigenere.encrypt (Vigenere.mk (mkEncryption m old) K)
  = (r <- vigenere_expected vigenere_forward K m ;;
     Ok (Vigenere.mk (mkEncryption m r) K)).
Proof.
  unfold Vigenere.encrypt. cbn [Vigenere.base Vigenere.messageKey clear message
                                encrypted_message with_result].
  now rewrite (proj1 (vigenere_loops_expected K m)).
Qed.

Lemma vigenere_decrypt_expected (m old K : list ascii) :
  Vigenere.decrypt (Vigenere.mk (mkEncryption m old) K)
  = (r <- vigenere_expected vigenere_backward K m ;;
     Ok (Vigenere.mk (mkEncryption m r) K)).
Proof.
  unfold Vigenere.decrypt. cbn [Vigenere.base Vigenere.messageKey clear message
                                encrypted_message with_result].
  now rewrite (proj2 (vigenere_loops_expected K m)).
Qed.

Lemma a1z26_decrypt_loop_decode (M : list ascii) :
  forall out, A1Z26.decrypt_loop M out = Ok (out ++ a1z26_decode M).
Proof.
  induction M as [| a | a b l IHl IHbl] using list_pair_ind; intros out.
  - simpl. now rewrite app_nil_r.
  - destruct (isdigit (int_of_char a)) eqn:D.
    + rewrite (a1z26_decrypt_loop_lone_digit a out D).
      cbn [a1z26_decode]. now rewrite D.
    + rewrite (a1z26_decrypt_loop_other a [] out D).
      cbn [a1z26_decode A1Z26.decrypt_loop]. rewrite D.
      destruct (isalpha (int_of_char a)); now rewrite ?app_nil_r.
  - destruct (isdigit (int_of_char a)) eqn:D.
    + rewrite (a1z26_decrypt_loop_group a b l out D), IHl.
      cbn [a1z26_decode]. rewrite D, <- app_assoc. reflexivity.
    + rewrite (a1z26_decrypt_loop_other a (b :: l) out D), IHbl.
      change (a1z26_decode (a :: b :: l))
        with (if isdigit (int_of_char a)
              then to_char (97 + (if isdigit (int_of_char b)
                                  then 10 * (int_of_char a - 48) + (int_of_char b - 48)
                                  else int_of_char a - 48) - 1)
                   :: a1z26_decode l
              else if isalpha (int_of_char a)
                   then to_string (tolower (int_of_char a) - 96) ++ a1z26_decode (b :: l)
                   else a :: a1z26_decode (b :: l)).
      rewrite D, <- app_assoc.
      destruct (isalpha (int_of_char a)); reflexivity.
Qed.

Lemma atbash_encrypt_state (e : Encryption) :
  Atbash.encrypt e
  = mkEncryption (message e)
      (encrypted_message e ++ map Atbash.encryptChar (message e)).
Proof.
  unfold Atbash.encrypt, with_result. rewrite atbash_encrypt_loop_map.
  do 2 f_equal. apply map_ext, guarded_atbash.
Qed.

Lemma a1z26_encrypt_state (e : Encryption) :
  A1Z26.encrypt e
  = mkEncryption (message e)
      (encrypted_message e ++ flat_map a1z26_unit (message e)).
Proof.
  unfold A1Z26.encrypt, with_result. now rewrite a1z26_encrypt_loop_units.
Qed.

Lemma a1z26_decrypt_state (e : Encryption) :
  A1Z26.decrypt e
  = Ok (mkEncryption (message e)
          (encrypted_message e ++ a1z26_decode (message e))).
Proof.
  unfold A1Z26.decrypt. now rewrite a1z26_decrypt_loop_decode.
Qed.

(** C10: Caesar and Vigenere clear the stored result at the start of a
    transform, so what is read after a call is the transform of the current
    message whatever was stored before; Atbash and A1Z26 do not, so a call
    appends its output to what was stored, and a second call on the same
    object, after the message was replaced, leaves the two results one
    after the other.  Each result is given by what the loop of the
    transform makes of the message. *)
Theorem result_cleared_by_caesar_vigenere_only
  (cs : Caesar.t) (vs : Vigenere.t) (e : Encryption)
  (m1 m2 old K : list ascii) :
  (* Caesar: the result is the transform of the current message *)
  Caesar.getEncryptedMessage (Caesar.encrypt cs)
    = map (guarded (Caesar.encryptChar (Caesar.key cs))) (message (Caesar.base cs)) /\
  Caesar.getEncryptedMessage (Caesar.decrypt cs)
    = map (guarded (Caesar.decryptChar (Caesar.key cs))) (message (Caesar.base cs)) /\
  Caesar.getEncryptedMessage
    (Caesar.encrypt (Caesar.setMessage m2 (Caesar.encrypt (Caesar.setMessage m1 cs))))
    = Caesar.getEncryptedMessage (Caesar.encrypt (Caesar.setMessage m2 cs)) /\
  Caesar.getEncryptedMessage
    (Caesar.encrypt (Caesar.setMessage m2 (Caesar.encrypt (Caesar.setMessage m1 cs))))
    = map (guarded (Caesar.encryptChar (Caesar.key cs))) m2 /\
  (* Vigenere: the result is the transform of the current message *)
  Vigenere.encrypt (Vigenere.mk (mkEncryption m1 old) K)
    = (r <- vigenere_expected vigenere_forward K m1 ;;
       Ok (Vigenere.mk (mkEncryption m1 r) K)) /\
  Vigenere.decrypt (Vigenere.mk (mkEncryption m1 old) K)
    = (r <- vigenere_expected vigenere_backward K m1 ;;
       Ok (Vigenere.mk (mkEncryption m1 r) K)) /\
  Vigenere.encrypt (Vigenere.mk (mkEncryption m1 old) K)
    = Vigenere.encrypt (Vigenere.mk (mkEncryption m1 []) K) /\
  Vigenere.decrypt (Vigenere.mk (mkEncryption m1 old) K)
    = Vigenere.decrypt (Vigenere.mk (mkEncryption m1 []) K) /\
  (s1 <- Vigenere.encrypt (Vigenere.setMessage m1 vs) ;;
   s2 <- Vigenere.encrypt (Vigenere.setMessage m2 s1) ;;
   Ok (Vigenere.getEncryptedMessage s2))
    = (_ <- vigenere_expected vigenere_forward (Vigenere.messageKey vs) m1 ;;
       vigenere_expected vigenere_forward (Vigenere.messageKey vs) m2) /\
  (* Atbash: the output is appended to the stored result *)
  Atbash.encrypt e
    = mkEncryption (message e)
        (encrypted_message e ++ map Atbash.encryptChar (message e)) /\
  Atbash.decrypt e
    = mkEncryption (message e)
        (encrypted_message e ++ map Atbash.encryptChar (message e)) /\
  Atbash.run_encrypt m1 = map Atbash.encryptChar m1 /\
  getEncryptedMessage
    (Atbash.encrypt (setMessage m2 (Atbash.encrypt (setMessage m1 new_object))))
    = map Atbash.encryptChar m1 ++ map Atbash.encryptChar m2 /\
  (* A1Z26: the output is appended to the stored result *)
  A1Z26.encrypt e
    = mkEncryption (message e)
        (encrypted_message e ++ flat_map a1z26_unit (message e)) /\
  A1Z26.decrypt e
    = Ok (mkEncryption (message e)
            (encrypted_message e ++ a1z26_decode (message e))) /\
  A1Z26.run_encrypt m1 = flat_map a1z26_unit m1 /\
  A1Z26.run_decrypt m1 = Ok (a1z26_decode m1) /\
  getEncryptedMessage
    (A1Z26.encrypt (setMessage m2 (A1Z26.encrypt (setMessage m1 new_object))))
    = flat_map a1z26_unit m1 ++ flat_map a1z26_unit m2 /\
  A1Z26.decrypt (setMessage m2 (A1Z26.encrypt (setMessage m1 new_object)))
    = Ok (mkEncryption m2 (flat_map a1z26_unit m1 ++ a1z26_decode m2)).
Proof.
  split.
  { unfold Caesar.encrypt, Caesar.getEncryptedMessage, getEncryptedMessage.
    simpl. now rewrite caesar_encrypt_loop_map. }
  split.
  { unfold Caesar.decrypt, Caesar.getEncryptedMessage, getEncryptedMessage.
    simpl. now rewrite caesar_decrypt_loop_map. }
  split; [reflexivity|].
  split.
  { unfold Caesar.encrypt, Caesar.getEncryptedMessage, getEncryptedMessage.
    simpl. now rewrite caesar_encrypt_loop_map. }
  split; [apply vigenere_encrypt_expected|].
  split; [apply vigenere_decrypt_expected|].
  split; [reflexivity|]. split; [reflexivity|].
  split.
  { destruct vs as [[m0 old0] K0].
    unfold Vigenere.setMessage, setMessage.
    cbn [Vigenere.base Vigenere.messageKey message encrypted_message].
    rewrite vigenere_encrypt_expected.
    destruct (vigenere_expected vigenere_forward K0 m1) as [r1| |];
      cbn [bind]; try reflexivity.
    cbn [Vigenere.base Vigenere.messageKey message encrypted_message].
    rewrite vigenere_encrypt_expected.
    destruct (vigenere_expected vigenere_forward K0 m2); reflexivity. }
  split; [apply atbash_encrypt_state|].
  split; [apply atbash_encrypt_state|].
  split; [apply atbash_run_encrypt_map|].
  split.
  { rewrite !atbash_encrypt_state. reflexivity. }
  split; [apply a1z26_encrypt_state|].
  split; [apply a1z26_decrypt_state|].
  split; [apply a1z26_run_encrypt_units|].
  split.
  { rewrite a1z26_run_decrypt_loop. apply (a1z26_decrypt_loop_decode m1 []). }
  split.
  { rewrite !a1z26_encrypt_state. reflexivity. }
  rewrite a1z26_decrypt_state, !a1z26_encrypt_state. reflexivity.
Qed.
